(** * areq: a concurrent fetch / parse / write link harvester

    Shallow embedding of [areq.py] and the properties of its parts:
    [fetch_html], the href scan and resolution inside [parse], [parse]
    itself, [write_one], [bulk_crawl_and_write] and the script that reads
    the seeds and starts the run.

    Conventions.
    - A Python [str] is a [string]; a character is an 8-bit code point.
    - A Python [set] of strings is a [gset string]; where the program
      iterates over a set, in an order Python does not fix, the model
      takes the order of [elements], and no theorem depends on it.
    - A raised exception is the [Raise] case of [result]; what is logged or
      printed is returned as a list of [log_event]s, oldest first.
    - A coroutine is a state machine that advances from one [await] to the
      next; the event loop is a scheduler that picks which one advances. *)

From stdpp Require Import gmap strings list.
From Stdlib Require Import Ascii String ZArith Lia.

Open Scope string_scope.
Open Scope Z_scope.
Open Scope nat_scope.

(** ** Exceptions and results *)

(** The exceptions the program can meet, by the classes its [except]
    clauses tell apart. *)
Inductive exn : Type :=
  | ClientResponseError (status : Z) (message : string)
      (* aiohttp.ClientError subclass, raised by [raise_for_status] *)
  | ClientError (detail : string)
      (* any other aiohttp.ClientError: no [status], no [message] *)
  | HttpProcessingError (code : Z) (message : string)
      (* aiohttp.http_exceptions.HttpProcessingError *)
  | ValueError (msg : string)
  | URLError (reason : string)
  | OSError (msg : string)
  | OtherException (name : string).

Inductive result (A : Type) : Type :=
  | Ok (a : A)
  | Raise (e : exn).
Arguments Ok {A} a.
Arguments Raise {A} e.

(** [except (aiohttp.ClientError, aiohttp.http_exceptions.HttpProcessingError)] *)
Definition is_aiohttp_error (e : exn) : bool :=
  match e with
  | ClientResponseError _ _ | ClientError _ | HttpProcessingError _ _ => true
  | _ => false
  end.

(** [except (urllib.error.URLError, ValueError)] *)
Definition is_url_error (e : exn) : bool :=
  match e with
  | URLError _ | ValueError _ => true
  | _ => false
  end.

(** [getattr(e, "status", None)] and [getattr(e, "message", None)] *)
Definition attr_status (e : exn) : option Z :=
  match e with
  | ClientResponseError st _ => Some st
  | _ => None
  end.

Definition attr_message (e : exn) : option string :=
  match e with
  | ClientResponseError _ m | HttpProcessingError _ m => Some m
  | _ => None
  end.

(** ** What the program logs and prints *)

Inductive log_event : Type :=
  | Printed (url : string)
      (* print(f"Parsing HTML for url: {url}") *)
  | InfoGotResponse (status : Z) (url : string)
      (* logger.info("Got response [%s] for URL: %s", ...) *)
  | ErrorAiohttp (url : string) (status : option Z) (message : option string)
      (* logger.error("aiohttp exception for %s [%s]: %s", ...) *)
  | ExceptionNonAiohttp (e : exn)
      (* logger.exception("Non-aiohttp exception occured:  %s", ...) *)
  | ExceptionParsingURL (link : string)
      (* logger.exception("Error parsing URL: %s", link) *)
  | InfoFound (n : nat) (url : string)
      (* logger.info("Found %d links for %s", len(found), url) *)
  | InfoWrote (url : string).
      (* logger.info("Wrote results for source URL: %s", url) *)

(** ** Strings, as Python slices and searches them *)

Module Str.

Definition dquote : ascii := "034"%char.
Definition newline : ascii := "010"%char.
Definition tab : ascii := "009"%char.
Definition cr : ascii := "013"%char.

Definition is_empty (s : string) : bool :=
  match s with EmptyString => true | String _ _ => false end.

(** [c in s] *)
Fixpoint mem (c : ascii) (s : string) : bool :=
  match s with
  | EmptyString => false
  | String a s' => Ascii.eqb a c || mem c s'
  end.

(** [s.find(c)] *)
Fixpoint find (c : ascii) (s : string) : option nat :=
  match s with
  | EmptyString => None
  | String a s' => if Ascii.eqb a c then Some 0 else option_map S (find c s')
  end.

(** [s.rfind(c)] *)
Fixpoint rfind (c : ascii) (s : string) : option nat :=
  match s with
  | EmptyString => None
  | String a s' =>
      match rfind c s' with
      | Some i => Some (S i)
      | None => if Ascii.eqb a c then Some 0 else None
      end
  end.

(** [s[:n]] *)
Fixpoint take (n : nat) (s : string) : string :=
  match n, s with
  | S k, String a s' => String a (take k s')
  | _, _ => EmptyString
  end.

(** [s[n:]] *)
Fixpoint drop (n : nat) (s : string) : string :=
  match n, s with
  | S k, String _ s' => drop k s'
  | _, _ => s
  end.

(** [s.find(c, start)] *)
Definition find_from (c : ascii) (start : nat) (s : string) : option nat :=
  option_map (Nat.add start) (find c (drop start s)).

(** [s.startswith(p)], with what follows the prefix *)
Fixpoint strip_prefix (p s : string) : option string :=
  match p, s with
  | EmptyString, _ => Some s
  | String a p', String b s' =>
      if Ascii.eqb a b then strip_prefix p' s' else None
  | String _ _, EmptyString => None
  end.

Definition startswith (p s : string) : bool :=
  match strip_prefix p s with Some _ => true | None => false end.

(** [s.split(c)]: never an empty list *)
Fixpoint split (c : ascii) (s : string) : list string :=
  match s with
  | EmptyString => [EmptyString]
  | String a s' =>
      if Ascii.eqb a c then EmptyString :: split c s'
      else match split c s' with
           | x :: r => String a x :: r
           | [] => [String a EmptyString]
           end
  end.

(** [s.split(c, 1)] when [c in s]: the two sides of the first [c] *)
Definition split1 (c : ascii) (s : string) : string * string :=
  match find c s with
  | Some i => (take i s, drop (S i) s)
  | None => (s, EmptyString)
  end.

(** [sep.join(l)] *)
Fixpoint join (sep : string) (l : list string) : string :=
  match l with
  | [] => EmptyString
  | [x] => x
  | x :: r => x ++ sep ++ join sep r
  end.

Fixpoint filter (p : ascii -> bool) (s : string) : string :=
  match s with
  | EmptyString => EmptyString
  | String a s' => if p a then String a (filter p s') else filter p s'
  end.

Fixpoint all (p : ascii -> bool) (s : string) : bool :=
  match s with
  | EmptyString => true
  | String a s' => p a && all p s'
  end.

Fixpoint map (f : ascii -> ascii) (s : string) : string :=
  match s with
  | EmptyString => EmptyString
  | String a s' => String (f a) (map f s')
  end.

(** [s.lstrip(chars)] with [chars] given as a test *)
Fixpoint lstrip (p : ascii -> bool) (s : string) : string :=
  match s with
  | EmptyString => EmptyString
  | String a s' => if p a then lstrip p s' else s
  end.

Fixpoint rev_onto (s acc : string) : string :=
  match s with
  | EmptyString => acc
  | String a s' => rev_onto s' (String a acc)
  end.

Definition rev (s : string) : string := rev_onto s EmptyString.

(** [s.strip(chars)] *)
Definition strip (p : ascii -> bool) (s : string) : string :=
  rev (lstrip p (rev (lstrip p s))).

Definition code (c : ascii) : nat := nat_of_ascii c.

Definition is_upper (c : ascii) : bool :=
  (65 <=? code c) && (code c <=? 90).
Definition is_lower (c : ascii) : bool :=
  (97 <=? code c) && (code c <=? 122).
Definition is_digit (c : ascii) : bool :=
  (48 <=? code c) && (code c <=? 57).

(** [c.isascii() and c.isalpha()] *)
Definition is_ascii_alpha (c : ascii) : bool := is_upper c || is_lower c.

Definition lower_char (c : ascii) : ascii :=
  if is_upper c then ascii_of_nat (code c + 32) else c.

(** [s.lower()], on the characters below 128 *)
Definition lower (s : string) : string := map lower_char s.

End Str.

(** ** The href scan: [HREF_RE = re.compile(r'href="(.*?)"')] (line 24) *)

Module HREF_RE.

(** The literal start of the pattern: href= and a double quote. *)
Definition opener : string := "href=" ++ String Str.dquote EmptyString.

(** The lazy group and the closing quote at the start of [r]: the group
    takes the characters up to the first double quote, and the dot of
    the pattern refuses a newline. *)
Fixpoint group (r : string) : option string :=
  match r with
  | EmptyString => None
  | String c r' =>
      if Ascii.eqb c Str.dquote then Some EmptyString
      else if Ascii.eqb c Str.newline then None
      else option_map (String c) (group r')
  end.

(** The whole pattern at the start of [s]: the captured group. *)
Definition match_here (s : string) : option string :=
  match Str.strip_prefix opener s with
  | Some r => group r
  | None => None
  end.

(** The scan of [findall]: try the pattern at each position from the
    left; after a match go on behind it. [skip] counts the characters of
    the last match still to pass. *)
Fixpoint scan (skip : nat) (s : string) : list string :=
  match s with
  | EmptyString => []
  | String _ s' =>
      match skip with
      | S k => scan k s'
      | O =>
          match match_here s with
          | Some v => v :: scan (String.length opener + String.length v) s'
          | None => scan 0 s'
          end
      end
  end.

(** [HREF_RE.findall(html)] *)
Definition findall (html : string) : list string := scan 0 html.

(** The text of one match whose group is [v]. *)
Definition occurrence (v : string) : string :=
  opener ++ v ++ String Str.dquote EmptyString.

(** What a group can be: no double quote and no newline in it. *)
Definition plain (v : string) : bool :=
  negb (Str.mem Str.dquote v) && negb (Str.mem Str.newline v).


End HREF_RE.

(** ** The standard library's [urllib.parse], as far as [urljoin] goes

    [urljoin] is the one library function whose result the program
    stores, so it is modelled from CPython's [urllib/parse.py]. On 8-bit
    characters [_checknetloc] (the NFKC test of non-ASCII hosts) never
    raises and is left out. The validation of a host written in brackets
    ([_check_bracketed_netloc], which calls the [ipaddress] module) stays
    abstract: [check_bracketed_netloc netloc] tells whether it accepts. *)

Section Areq.

Variable check_bracketed_netloc : string -> bool.

Definition uses_relative : list string :=
  [""; "ftp"; "http"; "gopher"; "nntp"; "imap"; "wais"; "file"; "https";
   "shttp"; "mms"; "prospero"; "rtsp"; "rtspu"; "sftp"; "svn"; "svn+ssh";
   "ws"; "wss"].

Definition uses_netloc : list string :=
  [""; "ftp"; "http"; "gopher"; "nntp"; "telnet"; "imap"; "wais"; "file";
   "mms"; "https"; "shttp"; "snews"; "prospero"; "rtsp"; "rtspu"; "rsync";
   "svn"; "svn+ssh"; "sftp"; "nfs"; "git"; "git+ssh"; "ws"; "wss"].

Definition uses_params : list string :=
  [""; "ftp"; "hdl"; "prospero"; "http"; "imap"; "https"; "shttp"; "rtsp";
   "rtspu"; "sip"; "sips"; "mms"; "sftp"; "tel"].

(** [x in l] for a list of strings *)
Definition str_in (x : string) (l : list string) : bool :=
  existsb (String.eqb x) l.

(** [scheme_chars]: letters, digits, [+], [-] and [.] *)
Definition is_scheme_char (c : ascii) : bool :=
  Str.is_lower c || Str.is_upper c || Str.is_digit c
  || Ascii.eqb c "+" || Ascii.eqb c "-" || Ascii.eqb c ".".

(** [_WHATWG_C0_CONTROL_OR_SPACE]: the code points 0 to 32 *)
Definition is_c0_or_space (c : ascii) : bool := Str.code c <=? 32.

(** [_UNSAFE_URL_BYTES_TO_REMOVE]: tab, carriage return, newline *)
Definition is_unsafe_byte (c : ascii) : bool :=
  Ascii.eqb c Str.tab || Ascii.eqb c Str.cr || Ascii.eqb c Str.newline.

Definition remove_unsafe (s : string) : string :=
  Str.filter (fun c => negb (is_unsafe_byte c)) s.

Record SplitResult : Type := mkSplit {
  s_scheme : string;
  s_netloc : string;
  s_path : string;
  s_query : string;
  s_fragment : string
}.

Record ParseResult : Type := mkParse {
  scheme : string;
  netloc : string;
  path : string;
  params : string;
  query : string;
  fragment : string
}.

Definition opt_min (d : nat) (o : option nat) : nat :=
  match o with Some w => Nat.min d w | None => d end.

(** [_splitnetloc(url, start)]: the host part ends at the first of
    [/], [?], [#] from [start] on, or at the end. *)
Definition _splitnetloc (url : string) (start : nat) : string * string :=
  let delim := String.length url in
  let delim := opt_min delim (Str.find_from "/" start url) in
  let delim := opt_min delim (Str.find_from "?" start url) in
  let delim := opt_min delim (Str.find_from "#" start url) in
  (Str.drop start (Str.take delim url), Str.drop delim url).

Definition first_is_alpha (url : string) : bool :=
  match url with
  | String c _ => Str.is_ascii_alpha c
  | EmptyString => false
  end.

(** The head of [urlsplit]: take a leading [scheme:] off when there is
    one, else keep the default scheme. *)
Definition split_scheme (url scheme : string) : string * string :=
  match Str.find ":" url with
  | Some (S _ as i) =>
      if first_is_alpha url && Str.all is_scheme_char (Str.take i url)
      then (Str.lower (Str.take i url), Str.drop (S i) url)
      else (scheme, url)
  | _ => (scheme, url)
  end.

(** The tail of [urlsplit]: fragment, then query. *)
Definition split_tail (scheme netloc url : string) : SplitResult :=
  let '(url, fragment) :=
    if Str.mem "#" url then Str.split1 "#" url else (url, EmptyString) in
  let '(url, query) :=
    if Str.mem "?" url then Str.split1 "?" url else (url, EmptyString) in
  mkSplit scheme netloc url query fragment.

(** [urlsplit(url, scheme, allow_fragments=True)] *)
Definition urlsplit (url scheme : string) : result SplitResult :=
  let url := Str.lstrip is_c0_or_space url in
  let scheme := Str.strip is_c0_or_space scheme in
  let url := remove_unsafe url in
  let scheme := remove_unsafe scheme in
  let '(scheme, url) := split_scheme url scheme in
  if Str.startswith "//" url then
    let '(netloc, url) := _splitnetloc url 2 in
    if (Str.mem "[" netloc && negb (Str.mem "]" netloc))
       || (Str.mem "]" netloc && negb (Str.mem "[" netloc))
    then Raise (ValueError "Invalid IPv6 URL")
    else if Str.mem "[" netloc && Str.mem "]" netloc
            && negb (check_bracketed_netloc netloc)
    then Raise (ValueError "Invalid IPv6 URL")
    else Ok (split_tail scheme netloc url)
  else Ok (split_tail scheme EmptyString url).

(** [_splitparams(url)] *)
Definition _splitparams (url : string) : string * string :=
  if Str.mem "/" url then
    match Str.find_from ";" (default 0 (Str.rfind "/" url)) url with
    | Some i => (Str.take i url, Str.drop (S i) url)
    | None => (url, EmptyString)
    end
  else
    match Str.find ";" url with
    | Some i => (Str.take i url, Str.drop (S i) url)
    | None => (Str.take (String.length url - 1) url, url)
    end.

(** [urlparse(url, scheme, allow_fragments=True)] *)
Definition urlparse (url scheme : string) : result ParseResult :=
  match urlsplit url scheme with
  | Raise e => Raise e
  | Ok r =>
      let '(url, params) :=
        if str_in (s_scheme r) uses_params && Str.mem ";" (s_path r)
        then _splitparams (s_path r)
        else (s_path r, EmptyString) in
      Ok (mkParse (s_scheme r) (s_netloc r) url params
                  (s_query r) (s_fragment r))
  end.

(** [urlunsplit((scheme, netloc, url, query, fragment))] *)
Definition urlunsplit (scheme netloc url query fragment : string) : string :=
  let url :=
    if negb (Str.is_empty netloc)
       || (negb (Str.is_empty scheme) && str_in scheme uses_netloc
           && negb (String.eqb (Str.take 2 url) "//"))
    then
      let url :=
        if negb (Str.is_empty url) && negb (String.eqb (Str.take 1 url) "/")
        then "/" ++ url else url in
      "//" ++ netloc ++ url
    else url in
  let url := if negb (Str.is_empty scheme) then scheme ++ ":" ++ url else url in
  let url := if negb (Str.is_empty query) then url ++ "?" ++ query else url in
  if negb (Str.is_empty fragment) then url ++ "#" ++ fragment else url.

(** [urlunparse((scheme, netloc, url, params, query, fragment))] *)
Definition urlunparse (p : ParseResult) : string :=
  let url :=
    if negb (Str.is_empty (params p)) then path p ++ ";" ++ params p
    else path p in
  urlunsplit (scheme p) (netloc p) url (query p) (fragment p).

(** [segments[1:-1] = filter(None, segments[1:-1])]: the empty segments
    strictly between the first and the last one go. *)
Definition drop_empty_middle (segments : list string) : list string :=
  match segments with
  | first :: (_ :: _) as rest =>
      first :: List.filter (fun s => negb (Str.is_empty s)) (removelast rest)
            ++ [List.last rest EmptyString]
  | _ => segments
  end.

(** The loop over [segments]: [..] pops (and is ignored on an empty
    stack), [.] is skipped, anything else is pushed. *)
Definition resolve_step (resolved_path : list string) (seg : string)
  : list string :=
  if String.eqb seg ".." then removelast resolved_path
  else if String.eqb seg "." then resolved_path
  else (resolved_path ++ [seg])%list.

(** [urljoin(base, url, allow_fragments=True)] *)
Definition urljoin (base url : string) : result string :=
  if Str.is_empty base then Ok url
  else if Str.is_empty url then Ok base
  else
    match urlparse base EmptyString with
    | Raise e => Raise e
    | Ok b =>
    match urlparse url (scheme b) with
    | Raise e => Raise e
    | Ok u =>
      if negb (String.eqb (scheme u) (scheme b))
         || negb (str_in (scheme u) uses_relative)
      then Ok url
      else if str_in (scheme u) uses_netloc && negb (Str.is_empty (netloc u))
      then Ok (urlunparse u)
      else
        let netloc :=
          if str_in (scheme u) uses_netloc then netloc b else netloc u in
        if Str.is_empty (path u) && Str.is_empty (params u) then
          let query := if Str.is_empty (query u) then query b else query u in
          Ok (urlunparse
                (mkParse (scheme u) netloc (path b) (params b) query
                         (fragment u)))
        else
          let base_parts := Str.split "/" (path b) in
          let base_parts :=
            if negb (Str.is_empty (List.last base_parts EmptyString))
            then removelast base_parts else base_parts in
          let segments :=
            if String.eqb (Str.take 1 (path u)) "/"
            then Str.split "/" (path u)
            else drop_empty_middle
                   (base_parts ++ Str.split "/" (path u))%list in
          let resolved_path := fold_left resolve_step segments [] in
          let resolved_path :=
            if str_in (List.last segments EmptyString) ["."; ".."]
            then (resolved_path ++ [EmptyString])%list else resolved_path in
          let joined := Str.join "/" resolved_path in
          Ok (urlunparse
                (mkParse (scheme u) netloc
                         (if Str.is_empty joined then "/" else joined)
                         (params u) (query u) (fragment u)))
    end
    end.

(** ** The network, as [fetch_html] sees it *)

(** What [session.request] hands back: the status line and what
    [resp.text()] will give once the body is read and decoded. *)
Record response : Type := mkResponse {
  status : Z;
  reason : string;
  text : result string
}.

(** The outcome of the GET of each URL: a response, or the exception
    that [session.request] raises. *)
Definition network : Type := string -> result response.

(** aiohttp's [raise_for_status]: a status of 400 or more raises
    [ClientResponseError] with the status and the reason phrase. *)
Definition raise_for_status (resp : response) : result unit :=
  if (400 <=? status resp)%Z
  then Raise (ClientResponseError (status resp) (reason resp))
  else Ok tt.

(** [fetch_html(url, session)] (lines 28 to 34): the request, the status
    test, the log entry, then the body. *)
Definition fetch_html (net : network) (url : string)
  : result string * list log_event :=
  match net url with
  | Raise e => (Raise e, [])
  | Ok resp =>
      match raise_for_status resp with
      | Raise e => (Raise e, [])
      | Ok _ => (text resp, [InfoGotResponse (status resp) url])
      end
  end.

(** ** [parse] *)

(** The [for link in HREF_RE.findall(html)] loop (lines 58 to 65): a link
    that [urljoin] refuses with [URLError] or [ValueError] is logged and
    passed over, any other exception leaves the loop, everything else is
    added to [found]. *)
Fixpoint resolve_links (url : string) (links : list string)
    (found : gset string) : result (gset string) * list log_event :=
  match links with
  | [] => (Ok found, [])
  | link :: rest =>
      match urljoin url link with
      | Ok abslink => resolve_links url rest ({[abslink]} ∪ found)
      | Raise e =>
          if is_url_error e then
            let '(r, l) := resolve_links url rest found in
            (r, ExceptionParsingURL link :: l)
          else (Raise e, [])
      end
  end.

(** The [else] block of [parse] (lines 57 to 67), which is the link
    extraction: scan, resolve, count. *)
Definition extract_links (url html : string)
  : result (gset string) * list log_event :=
  match resolve_links url (HREF_RE.findall html) ∅ with
  | (Ok found, l) => (Ok found, (l ++ [InfoFound (size found) url])%list)
  | (Raise e, l) => (Raise e, l)
  end.

(** [parse(url, session)] (lines 37 to 67) *)
Definition parse (net : network) (url : string)
  : result (gset string) * list log_event :=
  match fetch_html net url with
  | (Raise e, l) =>
      if is_aiohttp_error e then
        (Ok ∅, (Printed url :: l
                 ++ [ErrorAiohttp url (attr_status e) (attr_message e)])%list)
      else
        (Ok ∅, (Printed url :: l ++ [ExceptionNonAiohttp e])%list)
  | (Ok html, l) =>
      let '(r, l') := extract_links url html in
      (r, (Printed url :: l ++ l')%list)
  end.

(** ** [write_one] *)

(** One output record: [f"{url}\t{p}\n"] *)
Definition record_line (url p : string) : string :=
  url ++ String Str.tab EmptyString ++ p ++ String Str.newline EmptyString.

(** The sink is modelled by the texts handed to [f.write], in the order
    of the calls; how the file objects buffer them on their way to the
    disk is outside the program and outside this model. Whether the k-th
    operation of a [write_one] on the sink (the open, then each write,
    then the close) succeeds is up to the file system: [io k]. A failing
    operation raises [OSError]. *)
Definition sink_error : exn := OSError "sink".

(** The body of [async with aiofiles.open(file, "a") as f]: one write per
    link, then the log entry, then the close on leaving the block.
    [k] is the index of the next sink operation. *)
Fixpoint write_links (io : nat -> bool) (k : nat) (url : string)
    (todo : list string) (sink : list string)
  : result unit * list string * list log_event :=
  match todo with
  | [] =>
      if io k then (Ok tt, sink, [InfoWrote url])
      else (Raise sink_error, sink, [InfoWrote url])
  | p :: rest =>
      if io k then write_links io (S k) url rest (sink ++ [record_line url p])%list
      else (Raise sink_error, sink, [])
  end.

(** [write_one(file, url, session)] (lines 69 to 76), awaited on its
    own. *)
Definition write_one (net : network) (io : nat -> bool) (url : string)
    (sink : list string) : result unit * list string * list log_event :=
  match parse net url with
  | (Raise e, l) => (Raise e, sink, l)
  | (Ok res, l) =>
      match elements res with
      | [] => (Ok tt, sink, l)
      | todo =>
          if io 0 then
            let '(r, sink', l') := write_links io 1 url todo sink in
            (r, sink', (l ++ l')%list)
          else (Raise sink_error, sink, l)
      end
  end.

(** ** [write_one] as a task of the event loop *)

(** Where a [write_one] coroutine stands between two awaits. *)
Inductive unit_state : Type :=
  | Created                          (* [parse] has not returned yet *)
  | Opening (todo : list string)     (* [parse] gave links; the open is next *)
  | Writing (todo : list string)     (* inside [async with]; links left *)
  | Returned                         (* returned [None] *)
  | Failed (e : exn).                (* left by an exception *)

(** One resumption: the awaited operation is done ([io_ok] tells whether
    a sink operation succeeded) and the coroutine runs to its next await.
    Gives the new state, the text appended to the sink and the log. The
    awaits inside [parse] touch nothing shared and are taken as one. *)
Definition unit_step (net : network) (url : string) (io_ok : bool)
    (u : unit_state) : unit_state * list string * list log_event :=
  match u with
  | Created =>
      match parse net url with
      | (Raise e, l) => (Failed e, [], l)
      | (Ok res, l) =>
          match elements res with
          | [] => (Returned, [], l)
          | todo => (Opening todo, [], l)
          end
      end
  | Opening todo =>
      if io_ok then (Writing todo, [], []) else (Failed sink_error, [], [])
  | Writing (p :: rest) =>
      if io_ok then (Writing rest, [record_line url p], [])
      else (Failed sink_error, [], [])
  | Writing [] =>
      if io_ok then (Returned, [], [InfoWrote url])
      else (Failed sink_error, [], [InfoWrote url])
  | Returned => (Returned, [], [])
  | Failed e => (Failed e, [], [])
  end.

(** The state in which a task ends when [write_one] ends with [r]. *)
Definition state_of (r : result unit) : unit_state :=
  match r with Ok _ => Returned | Raise e => Failed e end.

(** A task resumed [n] times with nothing else running; [io k] answers
    its k-th sink operation. *)
Fixpoint resume (net : network) (url : string) (io : nat -> bool)
    (n k : nat) (u : unit_state) (sink : list string) (log : list log_event)
  : unit_state * list string * list log_event :=
  match n with
  | O => (u, sink, log)
  | S n' =>
      let '(u', written, l) := unit_step net url (io k) u in
      resume net url io n' (S k) u' (sink ++ written)%list (log ++ l)%list
  end.

(** ** [bulk_crawl_and_write] *)

(** The event loop: the tasks that [gather] runs, the sink and the log. *)
Record loop : Type := mkLoop {
  units : list (string * unit_state);
  sink : list string;
  log : list log_event
}.

(** One choice of the scheduler: which task is resumed, and whether the
    sink operation it was waiting for succeeded. *)
Record pick : Type := mkPick {
  who : nat;
  io_ok : bool
}.

(** [for url in urls: tasks.append(write_one(...))] *)
Definition spawn (urls : gset string) (sink0 : list string) : loop :=
  mkLoop (List.map (fun url => (url, Created)) (elements urls)) sink0 [].

(** Resume task [who pk]; a task number out of range, or a task that is
    over, changes nothing. *)
Definition loop_step (net : network) (pk : pick) (st : loop) : loop :=
  match units st !! who pk with
  | None => st
  | Some (url, u) =>
      let '(u', written, l) := unit_step net url (io_ok pk) u in
      mkLoop (<[who pk := (url, u')]> (units st))
             (sink st ++ written)%list (log st ++ l)%list
  end.

Definition is_returned (u : unit_state) : bool :=
  match u with Returned => true | _ => false end.

Definition all_returned (st : loop) : bool :=
  forallb (fun t => is_returned t.2) (units st).

Definition failure_of (st : loop) (i : nat) : option exn :=
  match units st !! i with
  | Some (_, Failed e) => Some e
  | _ => None
  end.

(** How [await asyncio.gather] ends. *)
Inductive outcome : Type :=
  | Pending                (* the schedule given is too short to tell *)
  | Completed              (* every task returned: [gather] returns *)
  | Propagated (e : exn).  (* a task raised [e]: [gather] raises it at once *)

(** [await asyncio.gather] under the schedule [sched]: it returns
    once every task has returned, and raises the first exception a task
    raises, leaving the other tasks where they are. *)
Fixpoint gather (net : network) (sched : list pick) (st : loop)
  : outcome * loop :=
  if all_returned st then (Completed, st)
  else
    match sched with
    | [] => (Pending, st)
    | pk :: rest =>
        let st' := loop_step net pk st in
        match failure_of st' (who pk) with
        | Some e => (Propagated e, st')
        | None => gather net rest st'
        end
    end.

(** [bulk_crawl_and_write(file, urls)] (lines 78 to 86): one task per
    URL, then [gather]. An exception out of [gather] leaves the
    [async with] block and the function. The creation of the
    [ClientSession] is taken to succeed. *)
Definition bulk_crawl_and_write (net : network) (sched : list pick)
    (urls : gset string) (sink0 : list string) : outcome * loop :=
  gather net sched (spawn urls sink0).

(** ** The script (lines 88 to 102) *)

(** [str.isspace] on 8-bit code points: 9 to 13, 28 to 32, 133 and 160. *)
Definition is_space (c : ascii) : bool :=
  let n := Str.code c in
  ((9 <=? n) && (n <=? 13)) || ((28 <=? n) && (n <=? 32))
  || (n =? 133) || (n =? 160).

(** [str.strip], with no argument *)
Definition str_strip (s : string) : string := Str.strip is_space s.

(** What reading in text mode does to line ends: a carriage return, with
    or without a newline behind it, becomes one newline. *)
Fixpoint universal_newlines (s : string) : string :=
  match s with
  | EmptyString => EmptyString
  | String c s' =>
      if Ascii.eqb c Str.cr then
        match s' with
        | String c' s'' =>
            if Ascii.eqb c' Str.newline
            then String Str.newline (universal_newlines s'')
            else String Str.newline (universal_newlines s')
        | EmptyString => String Str.newline EmptyString
        end
      else String c (universal_newlines s')
  end.

(** The pieces between the newlines, made lines again: each one but the
    last gets its newline back, and an empty last piece is no line. *)
Fixpoint with_line_ends (parts : list string) : list string :=
  match parts with
  | [] => []
  | [last] => if Str.is_empty last then [] else [last]
  | p :: rest =>
      (p ++ String Str.newline EmptyString) :: with_line_ends rest
  end.

(** [for line in infile]: the lines of the file, line ends included. *)
Definition file_lines (content : string) : list string :=
  with_line_ends (Str.split Str.newline (universal_newlines content)).

(** [urls = set(map(str.strip, infile))] (line 96) *)
Definition seed_urls (content : string) : gset string :=
  list_to_set (List.map str_strip (file_lines content)).

(** The header that line 100 writes. *)
Definition header_line : string :=
  "source_url" ++ String Str.tab EmptyString
  ++ "parsed_url" ++ String Str.newline EmptyString.

(** The script: read the seeds from [urls.txt] ([infile] is its text, or
    the exception of the open), open [foundurls.txt] for writing, which
    empties it, and write the header ([out_ok] tells whether that works),
    then run [bulk_crawl_and_write] on the event loop. *)
Definition main (infile : result string) (out_ok : bool) (net : network)
    (sched : list pick) : result (outcome * loop) :=
  match infile with
  | Raise e => Raise e
  | Ok content =>
      let urls := seed_urls content in
      if out_ok
      then Ok (bulk_crawl_and_write net sched urls [header_line])
      else Raise sink_error
  end.

(** ** Sample pages, networks and schedules *)

(** A validator of bracketed hosts that accepts them all, to run the
    model on pages that have none. *)
Definition accept_bracketed : string -> bool := fun _ => true.

Definition quoted (v : string) : string :=
  String Str.dquote v ++ String Str.dquote EmptyString.

(** An anchor tag whose href attribute is [v]. *)
Definition anchor (v : string) : string := "<a href=" ++ quoted v ++ ">".

Definition served (body : string) : result response :=
  Ok (mkResponse 200 "OK" (Ok body)).

Definition unreachable : result response :=
  Raise (ClientError "cannot connect").

(** Two sites with two links each; everything else is unreachable. *)
Definition net_two_sites : network := fun url =>
  if String.eqb url "http://a.test"
  then served (anchor "/x" ++ anchor "http://b.test/y")
  else if String.eqb url "http://b.test"
  then served (anchor "/p" ++ anchor "/q")
  else unreachable.

Definition two_sites : gset string := {[ "http://a.test"; "http://b.test" ]}.

(** Resume the two tasks in turn, every sink operation succeeding. *)
Definition alternating : list pick :=
  [mkPick 0 true; mkPick 1 true; mkPick 0 true; mkPick 1 true;
   mkPick 0 true; mkPick 1 true; mkPick 0 true; mkPick 1 true;
   mkPick 0 true; mkPick 1 true].



(** A server that answers 304 Not Modified, which aiohttp does not
    follow, with an empty body. *)
Definition net_not_modified : network := fun _ =>
  Ok (mkResponse 304 "Not Modified" (Ok EmptyString)).

(** The claim that only a 2xx status is a success, as a statement about
    one exchange. *)
Definition success_iff_2xx (net : network) (url : string) (resp : response)
  : Prop :=
  (exists html, (fetch_html net url).1 = Ok html)
  <-> (200 <= status resp < 300)%Z.

(** The writer's own log entry, which [parse] never emits. *)
Definition is_wrote (ev : log_event) : bool :=
  match ev with InfoWrote _ => true | _ => false end.

(** The page and origin of the extraction example. *)
Definition origin_known : string := "http://x.test/dir/page".
Definition page_known : string :=
  anchor "/a" ++ anchor "http://x.test/b" ++ anchor "../c".

(** A page with one good link, one that [urljoin] refuses, and one more
    good link behind it. *)
Definition page_bad_href : string :=
  anchor "/first" ++ anchor "http://[" ++ anchor "/last".

(** An origin with a fragment, and a page whose only href is empty. *)
Definition origin_fragment : string := "http://x.test/p#top".
Definition page_empty_href : string := anchor EmptyString.

(** The URL with its fragment stripped: what resolving an empty
    reference gives under RFC 3986 (section 5.2.2). *)
Definition strip_fragment (url : string) : string :=
  (Str.split1 "#" url).1.

(** A network that serves one page at every URL. *)
Definition net_serving (html : string) : network := fun _ => served html.

(** Let both tasks parse, let the second one open the sink and write
    one record; then the open of the first one fails. *)
Definition cut_midway : list pick :=
  [mkPick 0 true; mkPick 1 true; mkPick 1 true; mkPick 1 true;
   mkPick 0 false].


(** ** Measures of a run *)

(** The links of a URL, in the order in which [write_one] writes them. *)
Definition links (net : network) (url : string) : list string :=
  match (parse net url).1 with
  | Ok res => elements res
  | Raise _ => []
  end.

(** The records of one URL. *)
Definition batch (net : network) (url : string) : list string :=
  List.map (record_line url) (links net url).

(** The records a task has still to write. *)
Definition pending (net : network) (t : string * unit_state) : list string :=
  match t.2 with
  | Created => batch net t.1
  | Opening todo | Writing todo => List.map (record_line t.1) todo
  | Returned | Failed _ => []
  end.

(** The resumptions a task still needs when no sink operation fails:
    the parse, the open, one per link, the close. *)
Definition steps_left (net : network) (t : string * unit_state) : nat :=
  match t.2 with
  | Created =>
      match links net t.1 with
      | [] => 1
      | todo => List.length todo + 3
      end
  | Opening todo => List.length todo + 2
  | Writing todo => List.length todo + 1
  | Returned | Failed _ => 0
  end.

(** How often a schedule resumes task [i]. *)
Definition picks_of (i : nat) (sched : list pick) : nat :=
  List.length (List.filter (fun pk => who pk =? i) sched).

(** A schedule that resumes every task of [urls] as often as it needs. *)
Definition fair (net : network) (urls : gset string) (sched : list pick)
  : Prop :=
  forall i url, elements urls !! i = Some url ->
    steps_left net (url, Created) <= picks_of i sched.

Definition is_failed (u : unit_state) : bool :=
  match u with Failed _ => true | _ => false end.

Definition none_failed (st : loop) : Prop :=
  Forall (fun t => is_failed t.2 = false) (units st).




(** ** More measures: pages written from hrefs, links that resolve *)

(** A page written as separators and href matches in turn, then a tail. *)
Fixpoint page_of (items : list (string * string)) (tail : string) : string :=
  match items with
  | [] => tail
  | (sep, v) :: rest => sep ++ HREF_RE.occurrence v ++ page_of rest tail
  end.

(** Whether [urljoin] gives a link for this href. *)
Definition resolves (url link : string) : bool :=
  match urljoin url link with Ok _ => true | Raise _ => false end.

(** A string that does not begin with a character of [p]. *)
Definition head_ok (p : ascii -> bool) (s : string) : bool :=
  match s with
  | EmptyString => true
  | String c _ => negb (p c)
  end.



(** The schedule that runs the tasks one after the other: task [i] gets
    every resumption it needs before task [i + 1] gets its first. *)
Fixpoint in_turn (net : network) (i : nat) (urls : list string) : list pick :=
  match urls with
  | [] => []
  | url :: rest =>
      (replicate (steps_left net (url, Created)) (mkPick i true)
       ++ in_turn net (S i) rest)%list
  end.

(** ** More samples *)

(** A server that answers every request with 404. *)
Definition net_not_found : network := fun _ =>
  Ok (mkResponse 404 "Not Found" (Ok "gone")).

(** A live site and one that cannot be reached. *)
Definition live_and_dead : gset string :=
  {[ "http://a.test"; "http://c.test" ]}.

(** Resume each of two tasks five times, the first one first. *)
Definition five_each : list pick :=
  [mkPick 0 true; mkPick 0 true; mkPick 0 true; mkPick 0 true; mkPick 0 true;
   mkPick 1 true; mkPick 1 true; mkPick 1 true; mkPick 1 true; mkPick 1 true].


(** A seed file of three lines: a URL, the other URL with blanks around
    it and a Windows line end, and the first URL again. *)
Definition seeds_text : string :=
  "http://a.test" ++ String Str.newline EmptyString
  ++ "  http://b.test " ++ String Str.cr (String Str.newline EmptyString)
  ++ "http://a.test" ++ String Str.newline EmptyString.

(** A page whose hrefs stand in single quotes. *)
Definition page_single_quotes : string := "<a href='/a'><a href='/b'>".

(** A server whose answer is fine but whose body cannot be decoded. *)
Definition net_bad_body : network := fun _ =>
  Ok (mkResponse 200 "OK" (Raise (OtherException "UnicodeDecodeError"))).

(** ** Facts about the href scan *)

Lemma append_cons c a t : String c a ++ t = String c (a ++ t).
Proof. reflexivity. Qed.

Lemma append_assoc a b c : (a ++ b) ++ c = a ++ b ++ c.
Proof. induction a as [|x a IH]; [done|]. by rewrite !append_cons, IH. Qed.

Lemma length_append a b : String.length (a ++ b) = String.length a + String.length b.
Proof. induction a as [|x a IH]; [done|]. rewrite append_cons. simpl. by rewrite IH. Qed.

Lemma group_plain v t :
  HREF_RE.plain v = true -> HREF_RE.group (v ++ String Str.dquote t) = Some v.
Proof.
  unfold HREF_RE.plain. induction v as [|c v IH]; [done|].
  rewrite append_cons. simpl.
  rewrite !(Ascii.eqb_sym c).
  destruct (Ascii.eqb Str.dquote c); [done|].
  destruct (Ascii.eqb Str.newline c); [simpl; by rewrite andb_false_r|].
  simpl. intros H. by rewrite IH.
Qed.

Lemma occurrence_eq v t :
  HREF_RE.occurrence v ++ t = HREF_RE.opener ++ v ++ String Str.dquote t.
Proof. unfold HREF_RE.occurrence. by rewrite !append_assoc. Qed.

Lemma match_here_occurrence v t :
  HREF_RE.plain v = true -> HREF_RE.match_here (HREF_RE.occurrence v ++ t) = Some v.
Proof.
  intros Hv. rewrite occurrence_eq. unfold HREF_RE.match_here.
  change (Str.strip_prefix HREF_RE.opener (HREF_RE.opener ++ v ++ String Str.dquote t))
    with (Some (v ++ String Str.dquote t)).
  by apply group_plain.
Qed.

Lemma scan_skip a k t :
  HREF_RE.scan (String.length a + k) (a ++ t) = HREF_RE.scan k t.
Proof. induction a as [|c a IH]; [done|]. rewrite append_cons. simpl. done. Qed.

Lemma scan_match c s v :
  HREF_RE.match_here (String c s) = Some v ->
  HREF_RE.scan 0 (String c s)
  = v :: HREF_RE.scan (String.length HREF_RE.opener + String.length v) s.
Proof. intros H. simpl. by rewrite H. Qed.

Lemma scan_no_match c s :
  HREF_RE.match_here (String c s) = None ->
  HREF_RE.scan 0 (String c s) = HREF_RE.scan 0 s.
Proof. intros H. simpl. by rewrite H. Qed.

Lemma scan_occurrence v t :
  HREF_RE.plain v = true ->
  HREF_RE.scan 0 (HREF_RE.occurrence v ++ t) = v :: HREF_RE.scan 0 t.
Proof.
  intros Hv. pose proof (match_here_occurrence v t Hv) as Hm.
  set (A := ("ref=" ++ String Str.dquote EmptyString) ++ v
            ++ String Str.dquote EmptyString).
  assert (HREF_RE.occurrence v ++ t = String "h" (A ++ t)) as Heq.
  { rewrite occurrence_eq. unfold A. by rewrite !append_assoc. }
  rewrite Heq in *. rewrite (scan_match _ _ _ Hm). f_equal.
  replace (String.length HREF_RE.opener + String.length v)
    with (String.length A + 0)
    by (unfold A; rewrite !length_append; simpl; lia).
  apply scan_skip.
Qed.
















(** ** Facts about [urllib.parse]: the only exception is [ValueError] *)

Lemma urlsplit_raises url sch e :
  urlsplit url sch = Raise e -> e = ValueError "Invalid IPv6 URL".
Proof.
  unfold urlsplit.
  destruct (split_scheme _ _) as [sch' url'].
  destruct (Str.startswith _ _); [|discriminate].
  destruct (_splitnetloc _ _) as [nl rest].
  repeat match goal with
         | |- context [if ?c then _ else _] => destruct c
         end; congruence.
Qed.

Lemma urlparse_raises url sch e :
  urlparse url sch = Raise e -> e = ValueError "Invalid IPv6 URL".
Proof.
  unfold urlparse.
  destruct (urlsplit url sch) as [r|e'] eqn:E.
  - destruct (_ && _); [destruct (_splitparams _)|]; discriminate.
  - intros [= <-]. eauto using urlsplit_raises.
Qed.

Lemma urljoin_raises base url e :
  urljoin base url = Raise e -> is_url_error e = true.
Proof.
  unfold urljoin.
  destruct (Str.is_empty base); [discriminate|].
  destruct (Str.is_empty url); [discriminate|].
  destruct (urlparse base _) as [b|e1] eqn:E1.
  - destruct (urlparse url _) as [u|e2] eqn:E2.
    + repeat match goal with
             | |- context [if ?c then _ else _] => destruct c
             end; discriminate.
    + intros [= <-]. by rewrite (urlparse_raises _ _ _ E2).
  - intros [= <-]. by rewrite (urlparse_raises _ _ _ E1).
Qed.

(** ** Facts about the link loop *)

(** The loop never raises; it returns what it started from plus every
    link that resolves, and logs exactly the links that do not. *)
Lemma resolve_links_spec url links found :
  exists res l,
    resolve_links url links found = (Ok res, l)
    /\ (forall x, x ∈ res <->
          x ∈ found \/ exists link, link ∈ links /\ urljoin url link = Ok x)
    /\ (forall link, ExceptionParsingURL link ∈ l <->
          link ∈ links /\ exists e, urljoin url link = Raise e)
    /\ Forall (fun ev => exists link, ev = ExceptionParsingURL link) l.
Proof.
  revert found. induction links as [|link rest IH]; intros found; simpl.
  - exists found, []. split; [done|]. split; [|split].
    + intros x. split; [auto|]. intros [?|(? & Hin & _)]; [done|].
      by apply elem_of_nil in Hin.
    + intros x. split; [intros Hin; by apply elem_of_nil in Hin|].
      intros [Hin _]. by apply elem_of_nil in Hin.
    + constructor.
  - destruct (urljoin url link) as [abslink|e] eqn:E.
    + destruct (IH ({[abslink]} ∪ found)) as (res & l & -> & Hres & Hlog & Hall).
      exists res, l. split; [done|]. split; [|split]; [| |done].
      * intros x. rewrite Hres, elem_of_union, elem_of_singleton. split.
        -- intros [[->|?]|(k & Hk & Hx)]; eauto.
           ++ right. exists link. split; [left|done].
           ++ right. exists k. split; [by right|done].
        -- intros [?|(k & Hk & Hx)]; [auto|].
           apply elem_of_cons in Hk as [->|Hk].
           ++ left. left. congruence.
           ++ right. eauto.
      * intros k. rewrite Hlog. split.
        -- intros [Hk He]. split; [by right|done].
        -- intros [Hk [e He]]. apply elem_of_cons in Hk as [->|Hk].
           ++ congruence.
           ++ eauto.
    + rewrite (urljoin_raises _ _ _ E).
      destruct (IH found) as (res & l & -> & Hres & Hlog & Hall).
      exists res, (ExceptionParsingURL link :: l).
      split; [done|]. split; [|split].
      * intros x. rewrite Hres. split.
        -- intros [?|(k & Hk & Hx)]; [auto|].
           right. exists k. split; [by right|done].
        -- intros [?|(k & Hk & Hx)]; [auto|].
           apply elem_of_cons in Hk as [->|Hk]; [congruence|eauto].
      * intros k. rewrite elem_of_cons, Hlog. split.
        -- intros [[= ->]|[Hk He]].
           ++ split; [left|eauto].
           ++ split; [by right|done].
        -- intros [Hk He]. apply elem_of_cons in Hk as [->|Hk]; eauto.
      * constructor; eauto.
Qed.

Lemma extract_links_spec url html :
  exists found l,
    extract_links url html = (Ok found, (l ++ [InfoFound (size found) url])%list)
    /\ (forall x, x ∈ found <->
          exists link, link ∈ HREF_RE.findall html /\ urljoin url link = Ok x)
    /\ (forall link, ExceptionParsingURL link ∈ l <->
          link ∈ HREF_RE.findall html /\ exists e, urljoin url link = Raise e)
    /\ Forall (fun ev => exists link, ev = ExceptionParsingURL link) l.
Proof.
  unfold extract_links.
  destruct (resolve_links_spec url (HREF_RE.findall html) ∅)
    as (found & l & -> & Hres & Hlog & Hall).
  exists found, l. split; [done|]. split; [|done].
  intros x. rewrite Hres. split; [|eauto].
  intros [Hx|?]; [|done]. by apply not_elem_of_empty in Hx.
Qed.

Lemma parse_ok (net : network) url :
  exists found, (parse net url).1 = Ok found.
Proof.
  unfold parse. destruct (fetch_html net url) as [[html|e] l].
  - destruct (extract_links_spec url html) as (found & l' & -> & _). eauto.
  - destruct (is_aiohttp_error e); eauto.
Qed.

Lemma fetch_html_log (net : network) url :
  Forall (fun ev => is_wrote ev = false) (fetch_html net url).2.
Proof.
  unfold fetch_html. destruct (net url) as [resp|e]; [|constructor].
  destruct (raise_for_status resp); repeat constructor.
Qed.

Lemma parse_log (net : network) url :
  Forall (fun ev => is_wrote ev = false) (parse net url).2.
Proof.
  unfold parse. pose proof (fetch_html_log net url) as Hf.
  destruct (fetch_html net url) as [[html|e] l]; simpl in Hf.
  - destruct (extract_links_spec url html) as (found & l' & -> & _ & _ & Hall).
    simpl. constructor; [done|]. apply Forall_app. split; [done|].
    apply Forall_app. split; [|by repeat constructor].
    eapply Forall_impl; [exact Hall|]. by intros ev [link ->].
  - destruct (is_aiohttp_error e); simpl; (constructor; [done|]);
      apply Forall_app; split; try done; by repeat constructor.
Qed.

(** ** [fetch_html] *)

(** C4, as amended. [fetch_html] returns the body exactly when the status
    is below 400 and the body can be read; a status of 400 or more is a
    [ClientResponseError] that carries the status, never a success; below
    400 the result is whatever reading the body gives. *)
Theorem fetch_html_success_below_400 (net : network) url resp :
  net url = Ok resp ->
  ((exists html, (fetch_html net url).1 = Ok html)
     <-> ((status resp < 400)%Z /\ exists html, text resp = Ok html))
  /\ ((400 <= status resp)%Z ->
        (fetch_html net url).1
        = Raise (ClientResponseError (status resp) (reason resp)))
  /\ ((status resp < 400)%Z -> (fetch_html net url).1 = text resp).
Proof.
  intros Hnet. unfold fetch_html, raise_for_status. rewrite Hnet.
  destruct (Z.leb_spec 400 (status resp)) as [Hge|Hlt]; simpl.
  - split; [|split]; [|done|lia].
    split; [intros [html [=]]|intros [? _]; lia].
  - split; [|split]; [|lia|done].
    split; [intros [html ->]; eauto|intros [_ [html ->]]; eauto].
Qed.

(** ** [parse] contains every failure of the fetch *)

(** C2. [parse] never raises: it always returns a set; and when the fetch
    raises, whatever the exception, the set is empty and the exception is
    logged, as an aiohttp error or with [logger.exception]. *)
Theorem parse_contains_fetch_failure (net : network) url :
  (exists found, (parse net url).1 = Ok found)
  /\ (forall e l, fetch_html net url = (Raise e, l) ->
        (parse net url).1 = Ok ∅
        /\ (ErrorAiohttp url (attr_status e) (attr_message e)
              ∈ (parse net url).2
            \/ ExceptionNonAiohttp e ∈ (parse net url).2)).
Proof.
  split; [apply parse_ok|].
  intros e l Hf. unfold parse. rewrite Hf.
  destruct (is_aiohttp_error e); simpl; (split; [done|]).
  - left. right. rewrite elem_of_app. right. left.
  - right. right. rewrite elem_of_app. right. left.
Qed.

(** ** The link extraction *)

(** C5. A page whose hrefs are exactly [/a], [http://x.test/b] and [../c],
    fetched from [http://x.test/dir/page], gives exactly the three links
    [http://x.test/a], [http://x.test/b], [http://x.test/c]. *)
Theorem extract_links_known_base html :
  (forall v, v ∈ HREF_RE.findall html
             <-> v ∈ ["/a"; "http://x.test/b"; "../c"]) ->
  (extract_links origin_known html).1
  = Ok {[ "http://x.test/a"; "http://x.test/b"; "http://x.test/c" ]}.
Proof.
  intros Hrefs.
  destruct (extract_links_spec origin_known html) as (found & l & -> & Hres & _).
  simpl. f_equal. apply set_eq. intros x. rewrite Hres.
  rewrite !elem_of_union, !elem_of_singleton. split.
  - intros (v & Hv & Hx). apply Hrefs in Hv.
    repeat (apply elem_of_cons in Hv as [->|Hv]);
      [| | |by apply elem_of_nil in Hv];
      vm_compute in Hx; injection Hx as <-; auto.
  - intros [[->| ->]| ->].
    + exists "/a". split; [apply Hrefs; repeat constructor|reflexivity].
    + exists "http://x.test/b".
      split; [apply Hrefs; repeat constructor|reflexivity].
    + exists "../c". split; [apply Hrefs; repeat constructor|reflexivity].
Qed.

(** C6. The extraction never raises. Its result holds exactly the links
    that resolve: an href whose resolution raises is left out and logged
    with [logger.exception], and the hrefs around it are still resolved
    and kept. *)
Theorem extract_links_drops_unresolvable url html :
  exists found l,
    extract_links url html = (Ok found, l)
    /\ (forall x, x ∈ found <->
          exists link, link ∈ HREF_RE.findall html /\ urljoin url link = Ok x)
    /\ (forall link e, link ∈ HREF_RE.findall html ->
          urljoin url link = Raise e -> ExceptionParsingURL link ∈ l).
Proof.
  destruct (extract_links_spec url html) as (found & l & Heq & Hres & Hlog & _).
  exists found, (l ++ [InfoFound (size found) url])%list.
  split; [done|]. split; [done|].
  intros link e Hin He. rewrite elem_of_app. left. apply Hlog. eauto.
Qed.




(** ** Facts about the writer *)

Lemma urljoin_empty_ref base : urljoin base EmptyString = Ok base.
Proof. unfold urljoin. by destruct base. Qed.

Lemma write_links_ok io k url todo sink0 :
  (forall j, k <= j <= k + List.length todo -> io j = true) ->
  write_links io k url todo sink0
  = (Ok tt, (sink0 ++ List.map (record_line url) todo)%list, [InfoWrote url]).
Proof.
  revert k sink0. induction todo as [|p rest IH]; intros k sink0 Hio; simpl.
  - rewrite Hio by (simpl; lia). by rewrite app_nil_r.
  - rewrite Hio by (simpl; lia).
    rewrite IH by (intros j Hj; apply Hio; simpl; lia).
    by rewrite <- app_assoc.
Qed.


Lemma write_one_ok (net : network) io url sink0 res l :
  parse net url = (Ok res, l) ->
  elements res <> [] ->
  (forall j, j <= S (size res) -> io j = true) ->
  write_one net io url sink0
  = (Ok tt, (sink0 ++ List.map (record_line url) (elements res))%list,
     (l ++ [InfoWrote url])%list).
Proof.
  intros Hp Hne Hio. unfold write_one. rewrite Hp.
  destruct (elements res) as [|p rest] eqn:E; [done|].
  rewrite Hio by lia.
  rewrite write_links_ok; [done|].
  intros j Hj. apply Hio. unfold size, set_size. simpl. rewrite E.
  simpl in *. lia.
Qed.

Lemma resume_over (net : network) url io n k u sink0 log0 :
  is_returned u || is_failed u = true ->
  resume net url io n k u sink0 log0 = (u, sink0, log0).
Proof.
  revert k. induction n as [|n IH]; intros k Hu; [done|].
  destruct u as [|todo|todo| |e]; try done; simpl;
    rewrite !app_nil_r; by apply IH.
Qed.

Lemma write_links_as_task (net : network) io url todo k sink0 log0 n :
  List.length todo < n ->
  resume net url io n k (Writing todo) sink0 log0
  = (state_of (write_links io k url todo sink0).1.1,
     (write_links io k url todo sink0).1.2,
     (log0 ++ (write_links io k url todo sink0).2)%list).
Proof.
  revert n k sink0 log0.
  induction todo as [|p rest IH]; intros [|n] k sink0 log0 Hn;
    simpl in Hn; try lia; simpl.
  - destruct (io k); simpl; rewrite app_nil_r; by apply resume_over.
  - destruct (io k); simpl.
    + rewrite app_nil_r. apply IH. lia.
    + rewrite !app_nil_r. by apply resume_over.
Qed.

(** The task and the function are one program: started and then resumed
    on its own often enough, the task ends where [write_one] ends. *)
Lemma write_one_as_task (net : network) io url sink0 n :
  List.length (links net url) + 1 < n ->
  resume net url (fun k => match k with O => true | S j => io j end)
    (S n) 0 Created sink0 []
  = (state_of (write_one net io url sink0).1.1,
     (write_one net io url sink0).1.2,
     (write_one net io url sink0).2).
Proof.
  unfold write_one, links. simpl.
  destruct (parse net url) as [[res|e] l]; simpl.
  - intros Hn. destruct (elements res) as [|p rest] eqn:E.
    + rewrite app_nil_r. by apply resume_over.
    + rewrite app_nil_r. destruct n as [|n]; [lia|]. simpl.
      destruct (io 0) eqn:H0; rewrite !app_nil_r.
      * rewrite (write_links_as_task net (fun k => match k with
                                            | O => true
                                            | S j => io j
                                            end) url (p :: rest) 2 sink0 l n)
          by (simpl in *; lia).
        assert (forall todo k s,
                  write_links (fun k => match k with O => true | S j => io j end)
                    (S k) url todo s
                  = write_links io k url todo s) as Hshift.
        { induction todo as [|q todo IH]; intros k s; simpl; [done|].
          destruct (io k); [apply IH|done]. }
        rewrite Hshift. simpl. destruct (io 1); [|done].
        by destruct (write_links io 2 url rest _) as [[r s'] l'].
      * by apply resume_over.
  - intros _. rewrite app_nil_r. by apply resume_over.
Qed.

(** ** The empty href *)

(** C10, as amended. An empty href contributes the origin URL itself,
    unchanged, to the set; so the writer emits a record whose source and
    target are the same URL. *)
Theorem empty_href_yields_origin (net : network) url html l sink0 :
  fetch_html net url = (Ok html, l) ->
  EmptyString ∈ HREF_RE.findall html ->
  (exists found, (parse net url).1 = Ok found /\ url ∈ found)
  /\ record_line url url ∈ (write_one net (fun _ => true) url sink0).1.2.
Proof.
  intros Hf Hin.
  assert (exists found lg, parse net url = (Ok found, lg) /\ url ∈ found)
    as (found & lg & Hp & Hu).
  { unfold parse. rewrite Hf.
    destruct (extract_links_spec url html) as (found & l' & -> & Hres & _).
    eexists _, _. split; [done|]. apply Hres.
    exists EmptyString. split; [done|apply urljoin_empty_ref]. }
  split; [exists found; by rewrite Hp|].
  assert (elements found <> []) as Hne.
  { intros E. apply elem_of_elements in Hu. rewrite E in Hu.
    by apply elem_of_nil in Hu. }
  rewrite (write_one_ok _ _ _ _ _ _ Hp Hne) by done. simpl.
  rewrite elem_of_app. right. apply list_elem_of_fmap.
  exists url. split; [done|]. by apply elem_of_elements.
Qed.

(** ** [write_one] on an empty set, and on a failing sink *)

(** C9. When [parse] gives an empty set, because the page has no links or
    because the fetch failed, [write_one] returns without touching the
    sink: whatever the file system would answer, the sink is as before,
    the log holds what [parse] logged and none of it is the writer's
    entry, and the task goes from its start straight to its end. *)
Theorem write_one_empty_is_noop (net : network) io url sink0 :
  ((parse net url).1 = Ok ∅ ->
     write_one net io url sink0 = (Ok tt, sink0, (parse net url).2)
     /\ Forall (fun ev => is_wrote ev = false) (write_one net io url sink0).2
     /\ (forall ok, unit_step net url ok Created
                    = (Returned, [], (parse net url).2)))
  /\ (forall e l, fetch_html net url = (Raise e, l) ->
        (parse net url).1 = Ok ∅).
Proof.
  split.
  - intros Hp. unfold write_one, unit_step.
    pose proof (parse_log net url) as Hlog.
    destruct (parse net url) as [r l]. simpl in *. subst r.
    rewrite elements_empty. done.
  - intros e l Hf. unfold parse. rewrite Hf. by destruct (is_aiohttp_error e).
Qed.

(** ** Facts about the event loop *)

Lemma unit_step_pending (net : network) url ok u u' w l :
  unit_step net url ok u = (u', w, l) ->
  is_failed u' = false ->
  pending net (url, u) = (w ++ pending net (url, u'))%list.
Proof.
  unfold unit_step, pending, batch, links. simpl.
  destruct u as [|todo|[|p rest]| |e].
  - destruct (parse net url) as [[res|e] lg]; simpl.
    + destruct (elements res); intros [= <- <- <-]; done.
    + intros [= <- <- <-]. done.
  - destruct ok; intros [= <- <- <-]; done.
  - destruct ok; intros [= <- <- <-]; done.
  - destruct ok; intros [= <- <- <-]; done.
  - intros [= <- <- <-]. done.
  - intros [= <- <- <-]. done.
Qed.

Lemma unit_step_ok_not_failed (net : network) url u :
  is_failed u = false -> is_failed (unit_step net url true u).1.1 = false.
Proof.
  unfold unit_step. destruct u as [|todo|[|p rest]| |e]; try done.
  destruct (parse_ok net url) as [found Hp].
  destruct (parse net url) as [r lg]. simpl in Hp. subst r.
  by destruct (elements found).
Qed.

Lemma unit_step_steps_left (net : network) url u :
  is_failed u = false ->
  steps_left net (url, (unit_step net url true u).1.1)
  = pred (steps_left net (url, u)).
Proof.
  unfold unit_step, steps_left, links. simpl.
  destruct u as [|todo|[|p rest]| |e]; try done; simpl; try lia.
  destruct (parse_ok net url) as [found Hp].
  destruct (parse net url) as [r lg]. simpl in *. subst r.
  destruct (elements found); simpl; lia.
Qed.

Lemma concat_map_insert {A B} (f : A -> list B) (l : list A) i x y w :
  l !! i = Some x ->
  f x = (w ++ f y)%list ->
  List.concat (List.map f l) ≡ₚ (w ++ List.concat (List.map f (<[i:=y]> l)))%list.
Proof.
  revert i. induction l as [|a l IH]; intros [|i] Hl Hf; simpl in *; try done.
  - injection Hl as ->. rewrite Hf. by rewrite <- app_assoc.
  - rewrite (IH i Hl Hf).
    rewrite !app_assoc. apply Permutation_app_tail, Permutation_app_comm.
Qed.

Lemma loop_step_names (net : network) pk st :
  (units (loop_step net pk st)).*1 = (units st).*1.
Proof.
  unfold loop_step. destruct (units st !! who pk) as [[url u]|] eqn:E; [|done].
  destruct (unit_step net url (io_ok pk) u) as [[u' w] l]. simpl.
  rewrite list_fmap_insert. simpl.
  apply list_insert_id. by rewrite list_lookup_fmap, E.
Qed.

Lemma loop_step_none_failed (net : network) pk st :
  none_failed st ->
  failure_of (loop_step net pk st) (who pk) = None ->
  none_failed (loop_step net pk st).
Proof.
  unfold none_failed, failure_of, loop_step. intros Hnf.
  destruct (units st !! who pk) as [[url u]|] eqn:E; [|done].
  destruct (unit_step net url (io_ok pk) u) as [[u' w] l]. simpl.
  rewrite list_lookup_insert_eq by (by eapply lookup_lt_Some).
  intros Hu'. apply Forall_insert; [done|].
  simpl. by destruct u'.
Qed.

Lemma all_returned_pending (net : network) st :
  all_returned st = true -> List.concat (List.map (pending net) (units st)) = [].
Proof.
  unfold all_returned. induction (units st) as [|[url u] l IH]; [done|].
  simpl. intros [Hu Hl]%andb_prop. rewrite (IH Hl).
  by destruct u.
Qed.

(** While [gather] has not raised, no task has failed; and a run that
    completes has appended, in some order, the records that were pending. *)
Lemma gather_completed (net : network) sched st st' :
  none_failed st ->
  gather net sched st = (Completed, st') ->
  all_returned st' = true
  /\ (units st').*1 = (units st).*1
  /\ exists w, sink st' = (sink st ++ w)%list
               /\ w ≡ₚ List.concat (List.map (pending net) (units st)).
Proof.
  revert st. induction sched as [|pk rest IH]; intros st Hnf; simpl.
  - destruct (all_returned st) eqn:Hall; [|discriminate].
    intros [= <-]. split; [done|]. split; [done|].
    exists []. by rewrite app_nil_r, all_returned_pending.
  - destruct (all_returned st) eqn:Hall.
    { intros [= <-]. split; [done|]. split; [done|].
      exists []. by rewrite app_nil_r, all_returned_pending. }
    destruct (failure_of (loop_step net pk st) (who pk)) eqn:Hfail;
      [discriminate|].
    intros Hg.
    destruct (IH _ (loop_step_none_failed _ _ _ Hnf Hfail) Hg)
      as (Hret & Hnames & w & Hsink & Hperm).
    split; [done|]. split; [by rewrite Hnames, loop_step_names|].
    revert Hsink Hperm. pose proof (loop_step_none_failed _ _ _ Hnf Hfail) as Hnf'.
    revert Hnf'. unfold loop_step, none_failed.
    destruct (units st !! who pk) as [[url u]|] eqn:E; [|by eauto].
    destruct (unit_step net url (io_ok pk) u) as [[u' written] l] eqn:Hstep.
    simpl. intros Hnf' Hsink Hperm.
    exists (written ++ w)%list. split; [by rewrite Hsink, app_assoc|].
    rewrite (concat_map_insert (pending net) (units st) (who pk)
               (url, u) (url, u') written E).
    + by apply Permutation_app_head.
    + eapply unit_step_pending; [done|].
      apply (Forall_lookup_1 _ _ (who pk) (url, u')) in Hnf'; [exact Hnf'|].
      apply list_lookup_insert_eq. by eapply lookup_lt_Some.
Qed.


Lemma spawn_none_failed urls sink0 : none_failed (spawn urls sink0).
Proof.
  unfold none_failed, spawn. simpl. apply Forall_fmap, Forall_forall. done.
Qed.

Lemma spawn_pending (net : network) urls sink0 :
  List.concat (List.map (pending net) (units (spawn urls sink0)))
  = List.concat (List.map (batch net) (elements urls)).
Proof.
  unfold spawn. simpl. rewrite List.map_map. done.
Qed.

Lemma picks_of_cons i pk sched :
  picks_of i (pk :: sched)
  = (if who pk =? i then S (picks_of i sched) else picks_of i sched).
Proof. unfold picks_of. simpl. by destruct (who pk =? i). Qed.

(** With a sink that works, [gather] never raises, and a schedule that
    gives every task its resumptions makes it return. *)
Lemma gather_live (net : network) sched st :
  none_failed st ->
  Forall (fun pk => io_ok pk = true) sched ->
  (forall e, (gather net sched st).1 <> Propagated e)
  /\ ((forall i t, units st !! i = Some t ->
         steps_left net t <= picks_of i sched) ->
      (gather net sched st).1 = Completed).
Proof.
  revert st. induction sched as [|pk rest IH]; intros st Hnf Hio; simpl.
  - destruct (all_returned st) eqn:Hall; simpl; [done|].
    split; [done|]. intros Hfair. exfalso.
    apply not_true_iff_false in Hall. apply Hall.
    unfold all_returned. apply forallb_forall. intros [url u] Hin.
    apply list_elem_of_In, list_elem_of_lookup in Hin as [i Hi].
    specialize (Hfair _ _ Hi).
    eapply Forall_lookup_1 in Hnf; [|exact Hi]. simpl in *.
    unfold steps_left, picks_of in Hfair. simpl in Hfair.
    destruct u as [|todo|todo| |e]; try done; try lia.
    destruct (links net url); simpl in Hfair; lia.
  - destruct (all_returned st) eqn:Hall; simpl; [done|].
    apply Forall_cons in Hio as [Hpk Hio].
    assert (failure_of (loop_step net pk st) (who pk) = None) as Hfail.
    { unfold failure_of, loop_step.
      destruct (units st !! who pk) as [[url u]|] eqn:E; [|by rewrite E].
      pose proof (unit_step_ok_not_failed net url u) as Hu.
      rewrite Hpk.
      destruct (unit_step net url true u) as [[u' written] l]. simpl in *.
      rewrite list_lookup_insert_eq by (by eapply lookup_lt_Some).
      eapply Forall_lookup_1 in Hnf; [|exact E].
      specialize (Hu Hnf). by destruct u'. }
    rewrite Hfail.
    destruct (IH _ (loop_step_none_failed _ _ _ Hnf Hfail) Hio) as [IH1 IH2].
    split; [done|]. intros Hfair. apply IH2.
    intros i t. unfold loop_step.
    destruct (units st !! who pk) as [[url u]|] eqn:E.
    + pose proof (unit_step_steps_left net url u) as Hleft.
      rewrite Hpk.
      destruct (unit_step net url true u) as [[u' written] l]. simpl in *.
      destruct (decide (i = who pk)) as [->|Hne].
      * rewrite list_lookup_insert_eq by (by eapply lookup_lt_Some).
        intros [= <-]. specialize (Hfair _ _ E).
        rewrite picks_of_cons, Nat.eqb_refl in Hfair.
        eapply Forall_lookup_1 in Hnf; [|exact E].
        rewrite (Hleft Hnf). lia.
      * rewrite list_lookup_insert_ne by congruence.
        intros Hi. specialize (Hfair _ _ Hi).
        rewrite picks_of_cons in Hfair.
        destruct (Nat.eqb_spec (who pk) i); [congruence|done].
    + intros Hi. specialize (Hfair _ _ Hi).
      rewrite picks_of_cons in Hfair.
      destruct (Nat.eqb_spec (who pk) i) as [Heq|]; [|done].
      rewrite Heq in E. congruence.
Qed.

(** ** [bulk_crawl_and_write]: failures, records and the barrier *)



(** C8, as amended. [bulk_crawl_and_write] starts one task per seed URL,
    each URL once. When it returns, every task has returned. Failures of
    fetches stay inside their tasks: as long as no sink operation fails it
    never raises, whatever the network answers, and it returns under every
    schedule that resumes each task as often as that task needs. *)
Theorem gather_waits_for_all (net : network) urls sink0 :
  ((units (spawn urls sink0)).*1 = elements urls
   /\ NoDup (elements urls)
   /\ (forall url, url ∈ elements urls <-> url ∈ urls))
  /\ (forall sched st,
        bulk_crawl_and_write net sched urls sink0 = (Completed, st) ->
        Forall (fun t => t.2 = Returned) (units st)
        /\ (units st).*1 = elements urls)
  /\ (forall sched,
        Forall (fun pk => io_ok pk = true) sched ->
        (forall e, (bulk_crawl_and_write net sched urls sink0).1
                   <> Propagated e)
        /\ (fair net urls sched ->
            (bulk_crawl_and_write net sched urls sink0).1 = Completed)).
Proof.
  assert ((units (spawn urls sink0)).*1 = elements urls) as Hnames.
  { unfold spawn. simpl. rewrite <- list_fmap_compose.
    apply list_fmap_id. }
  split; [|split].
  - split; [done|]. split; [apply NoDup_elements|].
    intros url. apply elem_of_elements.
  - intros sched st Hb.
    destruct (gather_completed _ _ _ _ (spawn_none_failed urls sink0) Hb)
      as (Hret & Hn & _).
    split; [|by rewrite Hn].
    unfold all_returned in Hret. rewrite forallb_forall in Hret.
    apply Forall_forall. intros [url u] Hin.
    apply list_elem_of_In, Hret in Hin. simpl in *. by destruct u.
  - intros sched Hio.
    destruct (gather_live net sched _ (spawn_none_failed urls sink0) Hio)
      as [Hno Hlive].
    split; [done|]. intros Hfair. apply Hlive.
    intros i [url u]. unfold spawn. simpl.
    rewrite list_lookup_fmap. intros Hi.
    destruct (elements urls !! i) as [url'|] eqn:E; [|done].
    injection Hi as <- <-. by apply Hfair.
Qed.

(** ** More about the href scan *)

Lemma group_is_plain r v : HREF_RE.group r = Some v -> HREF_RE.plain v = true.
Proof.
  unfold HREF_RE.plain. revert v. induction r as [|c r IH]; intros v; [done|].
  simpl. destruct (Ascii.eqb c Str.dquote) eqn:Hq; [by intros [= <-]|].
  destruct (Ascii.eqb c Str.newline) eqn:Hn; [done|].
  destruct (HREF_RE.group r) as [g|]; [|done].
  intros [= <-]. simpl. rewrite Hq, Hn. simpl. by apply IH.
Qed.

Lemma group_has_quote r v : HREF_RE.group r = Some v -> Str.mem Str.dquote r = true.
Proof.
  revert v. induction r as [|c r IH]; intros v; [done|]. simpl.
  destruct (Ascii.eqb c Str.dquote); [done|].
  destruct (Ascii.eqb c Str.newline); [done|].
  destruct (HREF_RE.group r) as [g|]; [|done]. intros _. by apply (IH g).
Qed.

Lemma strip_prefix_mem p s r c :
  Str.strip_prefix p s = Some r -> Str.mem c r = true -> Str.mem c s = true.
Proof.
  revert s. induction p as [|x p IH]; intros s; simpl; [by intros [= ->]|].
  destruct s as [|y s]; [done|]. destruct (Ascii.eqb x y); [|done].
  intros H Hr. simpl. rewrite (IH _ H Hr). apply orb_true_r.
Qed.

Lemma findall_plain_lemma html v :
  v ∈ HREF_RE.findall html -> HREF_RE.plain v = true.
Proof.
  unfold HREF_RE.findall. generalize 0 as k. induction html as [|c s IH]; intros k.
  - intros H. by apply elem_of_nil in H.
  - simpl. destruct k as [|k]; [|apply IH].
    destruct (HREF_RE.match_here (String c s)) as [g|] eqn:Hm; [|apply IH].
    intros [->|Hin]%elem_of_cons; [|by eapply IH].
    unfold HREF_RE.match_here in Hm.
    destruct (Str.strip_prefix HREF_RE.opener (String c s)); [|done].
    by eapply group_is_plain.
Qed.

Lemma strip_prefix_eq p s r : Str.strip_prefix p s = Some r -> s = p ++ r.
Proof.
  revert s. induction p as [|x p IH]; intros s; simpl; [by intros [= ->]|].
  destruct s as [|y s]; [done|].
  destruct (Ascii.eqb_spec x y) as [->|]; [|done].
  intros H. by rewrite append_cons, <- (IH _ H).
Qed.

Lemma group_eq r v :
  HREF_RE.group r = Some v -> exists t, r = v ++ String Str.dquote t.
Proof.
  revert v. induction r as [|c r IH]; intros v; [done|]. simpl.
  destruct (Ascii.eqb_spec c Str.dquote) as [->|]; [intros [= <-]; by exists r|].
  destruct (Ascii.eqb c Str.newline); [done|].
  destruct (HREF_RE.group r) as [g|]; [|done].
  intros [= <-]. destruct (IH g eq_refl) as [t ->]. by exists t.
Qed.

(** X1. The scan finds nothing that is not in the page: every href it
    returns is free of double quotes and of newlines, and the page holds
    it between the start of the pattern and a closing double quote. *)
Theorem findall_sound html v :
  v ∈ HREF_RE.findall html ->
  HREF_RE.plain v = true
  /\ exists pre post, html = pre ++ HREF_RE.occurrence v ++ post.
Proof.
  intros Hin. split; [by eapply findall_plain_lemma|].
  revert Hin. unfold HREF_RE.findall. generalize 0 as k.
  induction html as [|c s IH]; intros k.
  - intros H. by apply elem_of_nil in H.
  - assert (forall j, v ∈ HREF_RE.scan j s ->
            exists pre post, String c s = pre ++ HREF_RE.occurrence v ++ post)
      as Hrest.
    { intros j (pre & post & ->)%IH. by exists (String c pre), post. }
    cbn [HREF_RE.scan]. destruct k as [|k]; [|apply Hrest].
    destruct (HREF_RE.match_here (String c s)) as [g|] eqn:Hm; [|apply Hrest].
    intros [->|Hin]%elem_of_cons; [|by eapply Hrest].
    unfold HREF_RE.match_here in Hm.
    destruct (Str.strip_prefix HREF_RE.opener (String c s)) as [r|] eqn:E;
      [|done].
    apply strip_prefix_eq in E. apply group_eq in Hm as [t ->].
    exists EmptyString, t. rewrite E. by rewrite occurrence_eq.
Qed.

(** X2. A page without a double quote has no href for the scan: hrefs in
    single quotes or without quotes are not seen. *)
Theorem findall_needs_double_quote html :
  Str.mem Str.dquote html = false -> HREF_RE.findall html = [].
Proof.
  unfold HREF_RE.findall. generalize 0 as k. induction html as [|c s IH]; intros k; [done|].
  intros Hq. assert (Str.mem Str.dquote s = false) as Hs.
  { simpl in Hq. by apply orb_false_elim in Hq as [_ ?]. }
  simpl. destruct k as [|k]; [|by apply IH].
  destruct (HREF_RE.match_here (String c s)) as [g|] eqn:Hm; [|by apply IH].
  exfalso. unfold HREF_RE.match_here in Hm.
  destruct (Str.strip_prefix HREF_RE.opener (String c s)) as [r|] eqn:E; [|done].
  apply group_has_quote in Hm. apply (strip_prefix_mem _ _ _ _ E) in Hm. congruence.
Qed.

Lemma scan_without_h sep t :
  Str.mem "h" sep = false -> HREF_RE.scan 0 (sep ++ t) = HREF_RE.scan 0 t.
Proof.
  induction sep as [|c sep IH]; [done|]. simpl Str.mem.
  intros [Hc Hsep]%orb_false_elim. rewrite append_cons.
  rewrite scan_no_match; [by apply IH|].
  unfold HREF_RE.match_here.
  change HREF_RE.opener with (String "h" ("ref=" ++ String Str.dquote EmptyString)).
  cbn [Str.strip_prefix]. rewrite Ascii.eqb_sym, Hc. done.
Qed.

(** X3. Scanning gives back what was written: a page made of href matches
    with plain values, with separators and a tail that have no letter h,
    scans to exactly those values, in the order of the page. *)
Theorem findall_page_of items tail :
  Forall (fun it => Str.mem "h" it.1 = false /\ HREF_RE.plain it.2 = true) items ->
  Str.mem "h" tail = false ->
  HREF_RE.findall (page_of items tail) = items.*2.
Proof.
  unfold HREF_RE.findall. intros Hitems Htail.
  induction Hitems as [|[sep v] rest [Hsep Hv] _ IH]; simpl.
  - replace tail with (tail ++ EmptyString).
    + by rewrite scan_without_h.
    + clear. induction tail as [|c t IH]; [done|]. by rewrite append_cons, IH.
  - rewrite scan_without_h by done. rewrite scan_occurrence by done.
    by rewrite IH.
Qed.

(** ** More about [parse] *)

Lemma resolve_links_size url links found :
  forall res l, resolve_links url links found = (Ok res, l) ->
  size res <= size found + List.length links.
Proof.
  revert found. induction links as [|link rest IH]; intros found res l; simpl.
  - intros [= <- _]. lia.
  - destruct (urljoin url link) as [abslink|e].
    + intros H. apply IH in H.
      pose proof (size_union_alt {[abslink]} found) as Hs.
      rewrite size_singleton in Hs.
      assert (size (found ∖ {[abslink]}) <= size found)
        by (by apply subseteq_size, subseteq_difference_l).
      lia.
    + destruct (is_url_error e); [|done].
      destruct (resolve_links url rest found) as [[r|e'] l'] eqn:E; [|done].
      intros [= <- _]. apply IH in E. lia.
Qed.

(** X4. [parse] never returns more links than the page has hrefs, and the
    number it logs is the size of the set it returns. *)
Theorem parse_count_bounded (net : network) url html lf :
  fetch_html net url = (Ok html, lf) ->
  exists found l,
    parse net url = (Ok found, (l ++ [InfoFound (size found) url])%list)
    /\ size found <= List.length (HREF_RE.findall html).
Proof.
  intros Hf. unfold parse, extract_links. rewrite Hf.
  destruct (resolve_links_spec url (HREF_RE.findall html) ∅)
    as (found & l & E & _).
  rewrite E. exists found, (Printed url :: lf ++ l)%list. split.
  - simpl. by rewrite app_assoc.
  - apply resolve_links_size in E. rewrite size_empty in E. lia.
Qed.

Lemma resolve_links_log url links found :
  (resolve_links url links found).2
  = List.map ExceptionParsingURL
      (List.filter (fun link => negb (resolves url link)) links).
Proof.
  revert found. induction links as [|link rest IH]; intros found; [done|].
  simpl. unfold resolves at 1.
  destruct (urljoin url link) as [abslink|e] eqn:E; simpl; [apply IH|].
  rewrite (urljoin_raises _ _ _ E).
  specialize (IH found).
  destruct (resolve_links url rest found) as [r l]. simpl in *. by rewrite IH.
Qed.

(** X5. The log of a [parse] whose fetch succeeds, entry by entry: the
    printed line, the entries of the fetch, one parsing error for every
    href that does not resolve, in the order of the page and once for
    each time it stands there, and the count last. *)
Theorem parse_log_exact (net : network) url html lf :
  fetch_html net url = (Ok html, lf) ->
  exists found,
    (parse net url).1 = Ok found
    /\ (parse net url).2
       = (Printed url :: lf
          ++ List.map ExceptionParsingURL
               (List.filter (fun link => negb (resolves url link))
                  (HREF_RE.findall html))
          ++ [InfoFound (size found) url])%list.
Proof.
  intros Hf. unfold parse, extract_links. rewrite Hf.
  pose proof (resolve_links_log url (HREF_RE.findall html) ∅) as Hlog.
  destruct (resolve_links_spec url (HREF_RE.findall html) ∅)
    as (found & l & E & _).
  rewrite E in *. simpl in Hlog. subst l. by exists found.
Qed.

(** X6. A status of 400 or more ends [parse] with the empty set and a log
    of two entries: the printed line and the aiohttp error, which carries
    the status code and the reason phrase. Nothing tells of a response. *)
Theorem parse_http_error_logged (net : network) url resp :
  net url = Ok resp ->
  (400 <= status resp)%Z ->
  parse net url
  = (Ok ∅, [Printed url;
            ErrorAiohttp url (Some (status resp)) (Some (reason resp))]).
Proof.
  intros Hnet Hst. unfold parse, fetch_html, raise_for_status. rewrite Hnet.
  destruct (Z.leb_spec 400 (status resp)); [done|lia].
Qed.

(** ** More about [write_one] *)



(** X7. When every sink operation works, [write_one] appends one record
    for each link of a non-empty set behind what the sink held, in the
    order of the set, adds the entry that tells so to the log of [parse],
    and returns. *)
Theorem write_one_appends_batch (net : network) io url sink0 res l :
  parse net url = (Ok res, l) ->
  res <> ∅ ->
  (forall j, j <= S (size res) -> io j = true) ->
  write_one net io url sink0
  = (Ok tt, (sink0 ++ List.map (record_line url) (elements res))%list,
     (l ++ [InfoWrote url])%list)
  /\ List.length (write_one net io url sink0).1.2
     = List.length sink0 + size res.
Proof.
  intros Hp Hne Hio.
  assert (elements res <> []) as Hel.
  { intros E. by apply elements_empty_inv, leibniz_equiv in E. }
  rewrite (write_one_ok _ _ _ _ _ _ Hp Hel Hio). split; [done|].
  simpl. by rewrite length_app, length_map.
Qed.



Lemma record_line_cons c url p :
  record_line (String c url) p = String c (record_line url p).
Proof. done. Qed.

(** X10. A record tells its source and its target apart: when the source
    URLs hold no tab, two records are equal only if their sources and
    their targets are. *)
Theorem record_line_inj url p url' p' :
  Str.mem Str.tab url = false ->
  Str.mem Str.tab url' = false ->
  record_line url p = record_line url' p' ->
  url = url' /\ p = p'.
Proof.
  revert url'. induction url as [|c url IH]; intros [|c' url'] Hu Hu'.
  - unfold record_line. change (EmptyString ++ ?x) with x.
    rewrite !append_cons. intros [= H]. split; [done|].
    revert p' H. induction p as [|x p IHp]; intros [|x' p'] H; try done.
    + by destruct p'.
    + by destruct p.
    + rewrite !append_cons in H. injection H as -> H. f_equal. by apply IHp.
  - rewrite record_line_cons. unfold record_line at 1.
    change (EmptyString ++ ?x) with x. rewrite append_cons. intros [= <- _].
    simpl in Hu'. try rewrite Ascii.eqb_refl in Hu'. done.
  - rewrite record_line_cons. unfold record_line at 2.
    change (EmptyString ++ ?x) with x. rewrite append_cons. intros [= -> _].
    simpl in Hu. try rewrite Ascii.eqb_refl in Hu. done.
  - rewrite !record_line_cons. intros [= -> H].
    simpl in Hu, Hu'. apply orb_false_elim in Hu as [_ Hu].
    apply orb_false_elim in Hu' as [_ Hu'].
    destruct (IH _ Hu Hu' H) as [-> ->]. done.
Qed.

(** ** More about [bulk_crawl_and_write] *)

Lemma gather_grows (net : network) sched st :
  (exists w, sink (gather net sched st).2 = (sink st ++ w)%list)
  /\ (units (gather net sched st).2).*1 = (units st).*1.
Proof.
  revert st. induction sched as [|pk rest IH]; intros st; simpl.
  - destruct (all_returned st); simpl; (split; [exists []; by rewrite app_nil_r|done]).
  - destruct (all_returned st); simpl; [split; [exists []; by rewrite app_nil_r|done]|].
    assert ((exists w, sink (loop_step net pk st) = (sink st ++ w)%list)) as [w1 Hw1].
    { unfold loop_step. destruct (units st !! who pk) as [[url u]|];
        [|exists []; by rewrite app_nil_r].
      destruct (unit_step net url (io_ok pk) u) as [[u' w] l]. by exists w. }
    destruct (failure_of (loop_step net pk st) (who pk)); simpl.
    + split; [by exists w1|apply loop_step_names].
    + destruct (IH (loop_step net pk st)) as [[w2 Hw2] Hn].
      split; [|by rewrite Hn, loop_step_names].
      exists (w1 ++ w2)%list. by rewrite Hw2, Hw1, app_assoc.
Qed.

Lemma bulk_grows (net : network) sched urls sink0 :
  (exists w, sink (bulk_crawl_and_write net sched urls sink0).2
             = (sink0 ++ w)%list)
  /\ (units (bulk_crawl_and_write net sched urls sink0).2).*1
     = elements urls.
Proof.
  unfold bulk_crawl_and_write.
  destruct (gather_grows net sched (spawn urls sink0)) as [Hw Hn].
  split; [done|]. rewrite Hn. unfold spawn. simpl.
  rewrite <- list_fmap_compose. apply list_fmap_id.
Qed.

Lemma bulk_completed (net : network) sched urls sink0 st :
  bulk_crawl_and_write net sched urls sink0 = (Completed, st) ->
  exists w, sink st = (sink0 ++ w)%list
            /\ w ≡ₚ List.concat (List.map (batch net) (elements urls)).
Proof.
  intros Hb.
  destruct (gather_completed _ _ _ _ (spawn_none_failed urls sink0) Hb)
    as (_ & _ & w & Hsink & Hperm).
  rewrite spawn_pending in Hperm. by exists w.
Qed.

(** X11. Whatever the schedule and however the run ends, the sink only
    grows at its end: what it held at the start is still its beginning;
    and the tasks stay those of the seed URLs. *)
Theorem bulk_sink_append_only (net : network) sched urls sink0 :
  (exists w, sink (bulk_crawl_and_write net sched urls sink0).2
             = (sink0 ++ w)%list)
  /\ (units (bulk_crawl_and_write net sched urls sink0).2).*1
     = elements urls.
Proof. apply bulk_grows. Qed.

Lemma gather_completed_order (net : network) sched st st' :
  none_failed st ->
  gather net sched st = (Completed, st') ->
  exists w, sink st' = (sink st ++ w)%list
            /\ Forall (fun t => pending net t `sublist_of` w) (units st).
Proof.
  revert st. induction sched as [|pk rest IH]; intros st Hnf; simpl.
  - destruct (all_returned st) eqn:Hall; [|discriminate].
    intros [= <-]. exists []. split; [by rewrite app_nil_r|].
    unfold all_returned in Hall. rewrite forallb_forall in Hall.
    apply Forall_forall. intros [url u] Hin.
    apply list_elem_of_In, Hall in Hin. by destruct u.
  - destruct (all_returned st) eqn:Hall.
    { intros [= <-]. exists []. split; [by rewrite app_nil_r|].
      unfold all_returned in Hall. rewrite forallb_forall in Hall.
      apply Forall_forall. intros [url u] Hin.
      apply list_elem_of_In, Hall in Hin. by destruct u. }
    destruct (failure_of (loop_step net pk st) (who pk)) eqn:Hfail;
      [discriminate|].
    intros Hg.
    pose proof (loop_step_none_failed _ _ _ Hnf Hfail) as Hnf'.
    destruct (IH _ Hnf' Hg) as (w & Hsink & Hsub).
    revert Hnf' Hsink Hsub. unfold loop_step, none_failed.
    destruct (units st !! who pk) as [[url u]|] eqn:E; [|by eauto].
    destruct (unit_step net url (io_ok pk) u) as [[u' written] l] eqn:Hstep.
    simpl. intros Hnf' Hsink Hsub.
    exists (written ++ w)%list. split; [by rewrite Hsink, app_assoc|].
    apply Forall_lookup. intros i t Hi.
    destruct (decide (i = who pk)) as [->|Hne].
    + rewrite E in Hi. injection Hi as <-.
      rewrite (unit_step_pending _ _ _ _ _ _ _ Hstep).
      * apply sublist_app; [done|].
        eapply (Forall_lookup_1 _ _ (who pk)) in Hsub; [exact Hsub|].
        apply list_lookup_insert_eq. by eapply lookup_lt_Some.
      * apply (Forall_lookup_1 _ _ (who pk) (url, u')) in Hnf'; [exact Hnf'|].
        apply list_lookup_insert_eq. by eapply lookup_lt_Some.
    + apply sublist_inserts_l.
      eapply (Forall_lookup_1 _ _ i) in Hsub; [exact Hsub|].
      by rewrite list_lookup_insert_ne by congruence.
Qed.

(** X12. In a run that completes, the records of each URL stand in the
    sink in the order in which its task wrote them: other records can
    come between them, none of them is moved or lost. *)
Theorem completed_run_keeps_order (net : network) sched urls sink0 st :
  bulk_crawl_and_write net sched urls sink0 = (Completed, st) ->
  exists w, sink st = (sink0 ++ w)%list
            /\ forall url, url ∈ urls -> batch net url `sublist_of` w.
Proof.
  intros Hb.
  destruct (gather_completed_order _ _ _ _ (spawn_none_failed urls sink0) Hb)
    as (w & Hsink & Hsub).
  exists w. split; [done|]. intros url Hurl.
  apply elem_of_elements in Hurl.
  rewrite Forall_forall in Hsub.
  apply (Hsub (url, Created)). unfold spawn. simpl.
  apply list_elem_of_fmap. by exists url.
Qed.

Lemma concat_map_Permutation {A B} (f : A -> list B) (l1 l2 : list A) :
  l1 ≡ₚ l2 -> List.concat (List.map f l1) ≡ₚ List.concat (List.map f l2).
Proof.
  induction 1 as [|x l1 l2 _ IH|x y l|l1 l2 l3 _ IH1 _ IH2]; simpl.
  - done.
  - by rewrite IH.
  - rewrite !app_assoc. apply Permutation_app_tail, Permutation_app_comm.
  - by rewrite IH1.
Qed.

(** X13. A URL whose fetch fails leaves no trace in the sink and takes
    nothing from the others: a run that completes writes what it would
    write without that URL among the seeds. *)
Theorem failed_fetch_is_isolated (net : network) sched urls sink0 st url e l :
  fetch_html net url = (Raise e, l) ->
  bulk_crawl_and_write net sched urls sink0 = (Completed, st) ->
  batch net url = []
  /\ exists w,
       sink st = (sink0 ++ w)%list
       /\ w ≡ₚ List.concat (List.map (batch net) (elements (urls ∖ {[url]}))).
Proof.
  intros Hf Hb.
  assert (batch net url = []) as Hbatch.
  { unfold batch, links, parse. rewrite Hf.
    destruct (is_aiohttp_error e); simpl; by rewrite elements_empty. }
  split; [done|].
  destruct (bulk_completed net sched urls sink0 st Hb) as (w & Hsink & Hperm).
  exists w. split; [done|]. rewrite Hperm.
  destruct (decide (url ∈ urls)) as [Hin|Hnin].
  - assert (url ∉ urls ∖ {[url]}) as Hout.
    { rewrite elem_of_difference, elem_of_singleton. tauto. }
    rewrite (union_difference_singleton_L url urls Hin) at 1.
    rewrite (concat_map_Permutation _ _ _
               (elements_union_singleton (urls ∖ {[url]}) url Hout)).
    simpl. by rewrite Hbatch.
  - rewrite difference_disjoint_L; [done|]. by apply disjoint_singleton_r.
Qed.



(** ** More about strings: what a piece of a string can hold *)

Lemma mem_app c a b : Str.mem c (a ++ b) = Str.mem c a || Str.mem c b.
Proof.
  induction a as [|x a IH]; [done|]. rewrite append_cons. simpl.
  by rewrite IH, orb_assoc.
Qed.




Lemma mem_lstrip c p s :
  Str.mem c s = false -> Str.mem c (Str.lstrip p s) = false.
Proof.
  induction s as [|x s IH]; [done|]. simpl.
  intros H. destruct (p x); [|done].
  apply orb_false_elim in H as [_ Hs]. by apply IH.
Qed.


(** ** Links that always resolve *)





(** ** More about strings: reversal and stripping *)

Lemma append_nil_r s : s ++ EmptyString = s.
Proof. induction s as [|c s IH]; [done|]. by rewrite append_cons, IH. Qed.

Lemma rev_onto_app s acc : Str.rev_onto s acc = Str.rev s ++ acc.
Proof.
  unfold Str.rev. revert acc. induction s as [|c s IH]; intros acc; [done|].
  simpl. rewrite (IH (String c acc)), (IH (String c EmptyString)).
  by rewrite append_assoc.
Qed.

Lemma rev_cons c s : Str.rev (String c s) = Str.rev s ++ String c EmptyString.
Proof. unfold Str.rev at 1. simpl. apply rev_onto_app. Qed.

Lemma rev_app a b : Str.rev (a ++ b) = Str.rev b ++ Str.rev a.
Proof.
  induction a as [|c a IH].
  - change (EmptyString ++ b) with b. by rewrite append_nil_r.
  - by rewrite append_cons, !rev_cons, IH, append_assoc.
Qed.

Lemma rev_involutive s : Str.rev (Str.rev s) = s.
Proof.
  induction s as [|c s IH]; [done|]. by rewrite rev_cons, rev_app, IH.
Qed.

Lemma mem_rev c s : Str.mem c (Str.rev s) = Str.mem c s.
Proof.
  induction s as [|x s IH]; [done|]. rewrite rev_cons, mem_app, IH. simpl.
  by rewrite orb_false_r, orb_comm.
Qed.

Lemma mem_strip c p s :
  Str.mem c s = false -> Str.mem c (Str.strip p s) = false.
Proof.
  intros H. unfold Str.strip. rewrite mem_rev. apply mem_lstrip.
  rewrite mem_rev. by apply mem_lstrip.
Qed.

Lemma lstrip_split p s :
  exists w, s = w ++ Str.lstrip p s /\ Str.all p w = true.
Proof.
  induction s as [|c s (w & Hs & Hw)]; [by exists EmptyString|]. simpl.
  destruct (p c) eqn:Hc; [|by exists EmptyString].
  exists (String c w). rewrite append_cons, <- Hs. simpl. by rewrite Hc, Hw.
Qed.

Lemma lstrip_head p s : head_ok p (Str.lstrip p s) = true.
Proof.
  induction s as [|c s IH]; [done|]. simpl.
  destruct (p c) eqn:Hc; [done|]. simpl. by rewrite Hc.
Qed.

Lemma lstrip_id p s : head_ok p s = true -> Str.lstrip p s = s.
Proof. destruct s as [|c s]; [done|]. simpl. by destruct (p c). Qed.

Lemma lstrip_all p s : Str.all p s = true -> Str.lstrip p s = EmptyString.
Proof.
  induction s as [|c s IH]; [done|]. simpl.
  intros [-> Hs]%andb_prop. by apply IH.
Qed.

Lemma lstrip_app p a t :
  Str.lstrip p (a ++ t)
  = if Str.is_empty (Str.lstrip p a) then Str.lstrip p t
    else Str.lstrip p a ++ t.
Proof.
  induction a as [|c a IH]; [done|]. rewrite append_cons. simpl.
  destruct (p c); [done|]. by rewrite append_cons.
Qed.

Lemma strip_all p s : Str.all p s = true -> Str.strip p s = EmptyString.
Proof. intros H. unfold Str.strip. by rewrite (lstrip_all _ _ H). Qed.

(** A trailing character of [p] does not count. *)
Lemma strip_trailing p s c :
  p c = true -> Str.strip p (s ++ String c EmptyString) = Str.strip p s.
Proof.
  intros Hc. unfold Str.strip. rewrite lstrip_app.
  destruct (Str.lstrip p s) as [|x q] eqn:E; simpl.
  - by rewrite Hc.
  - rewrite rev_app.
    change (Str.rev (String c EmptyString)) with (String c EmptyString).
    rewrite append_cons. simpl. by rewrite Hc.
Qed.

Lemma strip_head p s : head_ok p (Str.strip p s) = true.
Proof.
  unfold Str.strip.
  pose proof (lstrip_head p s) as Ha.
  destruct (lstrip_split p (Str.rev (Str.lstrip p s))) as (w & Hs & _).
  set (a := Str.lstrip p s) in *.
  set (b := Str.lstrip p (Str.rev a)) in *.
  apply (f_equal Str.rev) in Hs. rewrite rev_involutive, rev_app in Hs.
  destruct (Str.rev b) as [|c r]; [done|].
  rewrite Hs, append_cons in Ha. done.
Qed.

Lemma strip_idempotent p s : Str.strip p (Str.strip p s) = Str.strip p s.
Proof.
  pose proof (strip_head p s) as Hh.
  unfold Str.strip at 1. rewrite (lstrip_id _ _ Hh).
  unfold Str.strip. rewrite rev_involutive.
  by rewrite (lstrip_id _ _ (lstrip_head p _)).
Qed.

(** ** More about the script: the lines of the seed file *)

Lemma universal_newlines_no_cr s :
  Str.mem Str.cr (universal_newlines s) = false.
Proof.
  enough (Str.mem Str.cr (universal_newlines s) = false
          /\ forall c, Str.mem Str.cr (universal_newlines (String c s)) = false)
    as [H _] by done.
  induction s as [|x s [IH1 IH2]].
  - split; [done|]. intros c. simpl.
    destruct (Ascii.eqb c Str.cr) eqn:Hc; [done|]. simpl. by rewrite Hc.
  - split; [apply IH2|]. intros c.
    change (universal_newlines (String c (String x s)))
      with (if Ascii.eqb c Str.cr
            then if Ascii.eqb x Str.newline
                 then String Str.newline (universal_newlines s)
                 else String Str.newline (universal_newlines (String x s))
            else String c (universal_newlines (String x s))).
    destruct (Ascii.eqb c Str.cr) eqn:Hc.
    + destruct (Ascii.eqb x Str.newline); [apply IH1|apply IH2].
    + cbn [Str.mem]. rewrite Hc. apply IH2.
Qed.

Lemma split_nonempty c s : Str.split c s <> [].
Proof.
  induction s as [|x s IH]; [done|]. simpl.
  destruct (Ascii.eqb x c); [done|]. by destruct (Str.split c s).
Qed.

Lemma split_pieces c c' s x :
  x ∈ Str.split c s ->
  Str.mem c x = false /\ (Str.mem c' s = false -> Str.mem c' x = false).
Proof.
  revert x. induction s as [|y s IH]; intros x; simpl.
  - intros ->%list_elem_of_singleton. done.
  - destruct (Ascii.eqb y c) eqn:Hy.
    + intros [->|Hin]%elem_of_cons; [done|].
      destruct (IH _ Hin) as [H1 H2]. split; [done|].
      intros [_ Hs]%orb_false_elim. auto.
    + destruct (Str.split c s) as [|h r] eqn:E; [by destruct (split_nonempty c s)|].
      intros [->|Hin]%elem_of_cons.
      * destruct (IH h) as [H1 H2]; [left|]. simpl. rewrite Hy, H1.
        split; [done|]. intros [-> Hs]%orb_false_elim. by apply H2.
      * destruct (IH x) as [H1 H2]; [by right|]. split; [done|].
        intros [_ Hs]%orb_false_elim. auto.
Qed.

Lemma with_line_ends_pieces parts line :
  line ∈ with_line_ends parts ->
  exists p, p ∈ parts
            /\ (line = p \/ line = p ++ String Str.newline EmptyString).
Proof.
  induction parts as [|p [|q rest] IH].
  - intros H. by apply elem_of_nil in H.
  - simpl. destruct (Str.is_empty p);
      [intros H; by apply elem_of_nil in H|].
    intros H%list_elem_of_singleton. subst. eexists. split; [left|by left].
  - change (with_line_ends (p :: q :: rest))
      with ((p ++ String Str.newline EmptyString) :: with_line_ends (q :: rest)).
    intros [->|Hin]%elem_of_cons.
    + exists p. split; [left|by right].
    + destruct (IH Hin) as (p' & Hp' & Hl). exists p'. split; [by right|done].
Qed.

Lemma seed_urls_clean_lemma content url :
  url ∈ seed_urls content ->
  Str.mem Str.newline url = false
  /\ Str.mem Str.cr url = false
  /\ str_strip url = url
  /\ exists line, line ∈ file_lines content /\ url = str_strip line.
Proof.
  unfold seed_urls. rewrite elem_of_list_to_set.
  intros (line & -> & Hline)%list_elem_of_fmap.
  split; [|split; [|split; [apply strip_idempotent|eauto]]].
  - destruct (with_line_ends_pieces _ _ Hline) as (p & Hp & [->| ->]).
    + apply mem_strip. by apply (split_pieces _ Str.newline) in Hp as [? _].
    + unfold str_strip. rewrite strip_trailing by done.
      apply mem_strip. by apply (split_pieces _ Str.newline) in Hp as [? _].
  - destruct (with_line_ends_pieces _ _ Hline) as (p & Hp & Hl).
    assert (Str.mem Str.cr p = false) as Hcr.
    { apply (split_pieces _ Str.cr) in Hp as [_ H]. apply H.
      apply universal_newlines_no_cr. }
    destruct Hl as [->| ->]; apply mem_strip; [done|].
    by rewrite mem_app, Hcr.
Qed.

(** X16. Every seed that the script reads is a stripped line: it holds
    no newline and no carriage return, and stripping it again changes
    nothing; and each seed is the stripped form of a line of the file. *)
Theorem seed_urls_clean content url :
  url ∈ seed_urls content ->
  Str.mem Str.newline url = false
  /\ Str.mem Str.cr url = false
  /\ str_strip url = url
  /\ exists line, line ∈ file_lines content /\ url = str_strip line.
Proof. apply seed_urls_clean_lemma. Qed.

Lemma universal_newlines_before_newline pre t :
  exists z,
    universal_newlines (pre ++ String Str.newline t)
    = z ++ String Str.newline (universal_newlines t).
Proof.
  enough ((exists z, universal_newlines (pre ++ String Str.newline t)
                     = z ++ String Str.newline (universal_newlines t))
          /\ forall c,
               exists z, universal_newlines (String c pre ++ String Str.newline t)
                         = z ++ String Str.newline (universal_newlines t))
    as [H _] by done.
  induction pre as [|x pre [IH1 IH2]].
  - split; [by exists EmptyString|]. intros c.
    change (String c EmptyString ++ String Str.newline t)
      with (String c (String Str.newline t)).
    change (universal_newlines (String c (String Str.newline t)))
      with (if Ascii.eqb c Str.cr
            then String Str.newline (universal_newlines t)
            else String c (String Str.newline (universal_newlines t))).
    destruct (Ascii.eqb c Str.cr).
    + by exists EmptyString.
    + by exists (String c EmptyString).
  - split; [apply IH2|]. intros c. rewrite !append_cons.
    change (universal_newlines
              (String c (String x (pre ++ String Str.newline t))))
      with (if Ascii.eqb c Str.cr
            then if Ascii.eqb x Str.newline
                 then String Str.newline
                        (universal_newlines (pre ++ String Str.newline t))
                 else String Str.newline
                        (universal_newlines
                           (String x (pre ++ String Str.newline t)))
            else String c
                   (universal_newlines
                      (String x (pre ++ String Str.newline t)))).
    destruct IH1 as [z1 H1]. destruct (IH2 x) as [z2 H2].
    rewrite append_cons in H2. rewrite H1, H2.
    destruct (Ascii.eqb c Str.cr); [destruct (Ascii.eqb x Str.newline)|].
    + by exists (String Str.newline z1).
    + by exists (String Str.newline z2).
    + by exists (String c z2).
Qed.

Lemma universal_newlines_keeps ws t :
  Str.mem Str.cr ws = false ->
  universal_newlines (ws ++ t) = ws ++ universal_newlines t.
Proof.
  induction ws as [|c ws IH]; [done|]. simpl Str.mem.
  intros [Hc Hws]%orb_false_elim. rewrite !append_cons. simpl.
  rewrite Hc. by rewrite IH.
Qed.

Lemma split_app c z r :
  Str.split c (z ++ String c r) = (Str.split c z ++ Str.split c r)%list.
Proof.
  induction z as [|x z IH].
  - change (EmptyString ++ ?s) with s. simpl. by rewrite Ascii.eqb_refl.
  - rewrite append_cons. simpl. rewrite IH.
    destruct (Ascii.eqb x c); [done|].
    destruct (Str.split c z) as [|h q] eqn:E; [by destruct (split_nonempty c z)|].
    done.
Qed.

Lemma split_none c s : Str.mem c s = false -> Str.split c s = [s].
Proof.
  induction s as [|x s IH]; [done|]. simpl.
  intros [-> Hs]%orb_false_elim. by rewrite (IH Hs).
Qed.

Lemma with_line_ends_middle a x b :
  b <> [] ->
  (x ++ String Str.newline EmptyString) ∈ with_line_ends (a ++ x :: b).
Proof.
  intros Hb. destruct b as [|y b]; [done|].
  induction a as [|p a IH]; [left|].
  change ((p :: a) ++ x :: y :: b)%list with (p :: (a ++ x :: y :: b))%list.
  destruct (a ++ x :: y :: b)%list as [|q rest] eqn:E.
  { by destruct a. }
  change (with_line_ends (p :: q :: rest))
    with ((p ++ String Str.newline EmptyString) :: with_line_ends (q :: rest)).
  by right.
Qed.

Lemma all_app p a b : Str.all p (a ++ b) = Str.all p a && Str.all p b.
Proof.
  induction a as [|c a IH]; [done|]. rewrite append_cons. simpl.
  by rewrite IH, andb_assoc.
Qed.

(** X17. A line of the seed file that is empty or holds only blanks is
    not passed over: it makes the empty string a seed URL. *)
Theorem blank_line_is_seed pre ws post :
  Str.all is_space ws = true ->
  Str.mem Str.newline ws = false ->
  Str.mem Str.cr ws = false ->
  EmptyString
    ∈ seed_urls (pre ++ String Str.newline (ws ++ String Str.newline post)).
Proof.
  intros Hws Hnl Hcr. unfold seed_urls, file_lines.
  rewrite elem_of_list_to_set.
  destruct (universal_newlines_before_newline pre
              (ws ++ String Str.newline post)) as [z ->].
  rewrite (universal_newlines_keeps ws _ Hcr).
  destruct (universal_newlines_before_newline EmptyString post) as [z' Hz'].
  change (EmptyString ++ String Str.newline post)
    with (String Str.newline post) in Hz'.
  rewrite Hz'.
  assert (z' = EmptyString) as ->.
  { revert Hz'. simpl. destruct z'; [done|]. rewrite append_cons.
    intros [= <- H]. apply (f_equal String.length) in H.
    rewrite length_append in H. simpl in H. lia. }
  change (EmptyString ++ ?s) with s.
  rewrite !split_app, (split_none _ _ Hnl).
  apply list_elem_of_fmap.
  exists (ws ++ String Str.newline EmptyString). split.
  - symmetry. apply strip_all. rewrite all_app, Hws. done.
  - apply with_line_ends_middle, split_nonempty.
Qed.

(** X18. What the script leaves in the output: one task for each
    different stripped line of the seed file; the header first in the
    sink however the run ends; and, when the run completes, behind the
    header the records of the seeds, each once. *)
Theorem main_output content (net : network) sched o st :
  main (Ok content) true net sched = Ok (o, st) ->
  ((units st).*1 = elements (seed_urls content)
   /\ NoDup (units st).*1
   /\ forall url, url ∈ (units st).*1 <->
        exists line, line ∈ file_lines content /\ url = str_strip line)
  /\ (exists w, sink st = header_line :: w)
  /\ (o = Completed ->
      exists w, sink st = header_line :: w
                /\ w ≡ₚ List.concat
                        (List.map (batch net) (elements (seed_urls content)))).
Proof.
  unfold main. intros [= Hrun].
  destruct (bulk_grows net sched (seed_urls content) [header_line])
    as [[w Hw] Hn].
  rewrite Hrun in Hw, Hn. simpl in Hw, Hn.
  split; [|split].
  - split; [done|]. rewrite Hn. split; [apply NoDup_elements|].
    intros url. rewrite elem_of_elements. unfold seed_urls.
    rewrite elem_of_list_to_set, list_elem_of_fmap.
    split; intros (line & ? & ?); eauto.
  - by exists w.
  - intros ->.
    destruct (bulk_completed net sched _ _ _ Hrun) as (w' & Hw' & Hperm).
    by exists w'.
Qed.

(** ** More about [urljoin]: no newline comes out of it *)




















(** ** What a run writes, however it ends *)






(** ** Tasks that run one after the other *)

Lemma gather_one_task (net : network) pre url u post sink1 log1 more :
  is_failed u = false ->
  Forall (fun t => is_failed t.2 = false) pre ->
  exists l,
    gather net
      (replicate (steps_left net (url, u)) (mkPick (List.length pre) true)
       ++ more)%list
      (mkLoop (pre ++ (url, u) :: post)%list sink1 log1)
    = gather net more
        (mkLoop (pre ++ (url, Returned) :: post)%list
                (sink1 ++ pending net (url, u))%list (log1 ++ l)%list).
Proof.
  intros Hu Hpre.
  remember (steps_left net (url, u)) as n eqn:Hn.
  revert u sink1 log1 Hu Hn. induction n as [|n IH]; intros u sink1 log1 Hu Hn.
  - assert (u = Returned) as ->.
    { unfold steps_left in Hn. simpl in Hn.
      destruct u as [|todo|todo| |e]; try done; try lia.
      destruct (links net url); simpl in Hn; lia. }
    exists []. simpl. by rewrite !app_nil_r.
  - assert (is_returned u = false) as Hnr by (by destruct u).
    pose proof (unit_step_steps_left net url u Hu) as Hleft.
    pose proof (unit_step_ok_not_failed net url u Hu) as Hok.
    pose proof (unit_step_pending net url true u) as Hpend.
    destruct (unit_step net url true u) as [[u' w] l] eqn:Hstep.
    simpl in Hleft, Hok. specialize (Hpend _ _ _ eq_refl Hok).
    rewrite <- Hn in Hleft. simpl in Hleft.
    destruct (IH u' (sink1 ++ w)%list (log1 ++ l)%list Hok (eq_sym Hleft))
      as [l' IHeq].
    exists (l ++ l')%list.
    cbn [replicate app gather].
    assert (all_returned (mkLoop (pre ++ (url, u) :: post)%list sink1 log1)
            = false) as ->.
    { unfold all_returned. simpl. rewrite forallb_app. simpl.
      rewrite Hnr. by rewrite andb_false_r. }
    assert (loop_step net (mkPick (List.length pre) true)
              (mkLoop (pre ++ (url, u) :: post)%list sink1 log1)
            = mkLoop (pre ++ (url, u') :: post)%list
                     (sink1 ++ w)%list (log1 ++ l)%list) as ->.
    { unfold loop_step. simpl.
      rewrite list_lookup_middle by done. rewrite Hstep.
      rewrite <- (Nat.add_0_r (List.length pre)) at 1.
      by rewrite insert_app_r. }
    cbn [who].
    assert (failure_of (mkLoop (pre ++ (url, u') :: post)%list
                          (sink1 ++ w)%list (log1 ++ l)%list)
              (List.length pre) = None) as ->.
    { unfold failure_of. simpl. rewrite list_lookup_middle by done.
      by destruct u'. }
    rewrite IHeq, Hpend. by rewrite !app_assoc.
Qed.

Lemma gather_in_turn (net : network) done rest sink1 log1 :
  exists l,
    gather net (in_turn net (List.length done) rest)
      (mkLoop (List.map (fun url => (url, Returned)) done
               ++ List.map (fun url => (url, Created)) rest)%list sink1 log1)
    = (Completed,
       mkLoop (List.map (fun url => (url, Returned)) (done ++ rest))
              (sink1 ++ List.concat (List.map (batch net) rest))%list
              (log1 ++ l)%list).
Proof.
  revert done sink1 log1. induction rest as [|url rest IH]; intros done sink1 log1.
  - exists []. simpl. rewrite !app_nil_r.
    assert (all_returned
              (mkLoop (List.map (fun url => (url, Returned)) done) sink1 log1)
            = true) as ->; [|done].
    unfold all_returned. simpl. apply forallb_forall.
    intros t (url & <- & _)%in_map_iff. done.
  - cbn [in_turn List.map].
    destruct (gather_one_task net
                (List.map (fun url => (url, Returned)) done) url Created
                (List.map (fun url => (url, Created)) rest) sink1 log1
                (in_turn net (S (List.length done)) rest)) as [l1 H1];
      [done|by apply Forall_fmap, Forall_forall|].
    rewrite length_map in H1. rewrite H1.
    destruct (IH (done ++ [url])%list
                (sink1 ++ pending net (url, Created))%list (log1 ++ l1)%list)
      as [l2 H2].
    rewrite length_app, Nat.add_1_r in H2.
    rewrite List.map_app in H2. simpl in H2.
    rewrite <- app_assoc in H2. simpl in H2. rewrite H2.
    exists (l1 ++ l2)%list. simpl.
    by rewrite <- !app_assoc.
Qed.

(** X21. When the tasks run one after the other, each to its end before
    the next begins, [bulk_crawl_and_write] returns and the sink holds,
    behind what it held, the records of the first URL, then those of the
    second, and so on: every batch unbroken. *)
Theorem in_turn_run_keeps_batches (net : network) urls sink0 :
  (bulk_crawl_and_write net (in_turn net 0 (elements urls)) urls sink0).1
  = Completed
  /\ sink (bulk_crawl_and_write net (in_turn net 0 (elements urls))
             urls sink0).2
     = (sink0 ++ List.concat (List.map (batch net) (elements urls)))%list.
Proof.
  unfold bulk_crawl_and_write, spawn.
  destruct (gather_in_turn net [] (elements urls) sink0 []) as [l H].
  simpl in H. rewrite H. done.
Qed.

(** X22. When the status is below 400 and reading the body raises,
    [parse] has logged the response as received before it logs the
    failure, and it returns the empty set. *)
Theorem parse_unreadable_body (net : network) url resp e :
  net url = Ok resp ->
  (status resp < 400)%Z ->
  text resp = Raise e ->
  parse net url
  = (Ok ∅,
     [Printed url; InfoGotResponse (status resp) url;
      if is_aiohttp_error e
      then ErrorAiohttp url (attr_status e) (attr_message e)
      else ExceptionNonAiohttp e]).
Proof.
  intros Hnet Hst Htext. unfold parse, fetch_html, raise_for_status.
  rewrite Hnet. destruct (Z.leb_spec 400 (status resp)); [lia|].
  rewrite Htext. by destruct (is_aiohttp_error e).
Qed.

End Areq.

(** ** The theorems at work on the sample pages *)

Lemma fetch_html_success_below_400_witness :
  net_not_modified "http://x.test/"
  = Ok (mkResponse 304 "Not Modified" (Ok EmptyString))
  /\ (fetch_html net_not_modified "http://x.test/").1 = Ok EmptyString.
Proof.
  split; [reflexivity|].
  apply (fetch_html_success_below_400 net_not_modified "http://x.test/"
           (mkResponse 304 "Not Modified" (Ok EmptyString)) eq_refl).
  reflexivity.
Defined.

(** A status of 304 is a success of [fetch_html], though it is no 2xx. *)
Lemma not_modified_is_success :
  (fetch_html net_not_modified "http://x.test/").1 = Ok EmptyString
  /\ ~ success_iff_2xx net_not_modified "http://x.test/"
         (mkResponse 304 "Not Modified" (Ok EmptyString)).
Proof.
  split; [reflexivity|].
  intros [H _]. destruct H as [_ H]; [by exists EmptyString|].
  vm_compute in H. discriminate.
Qed.

Lemma parse_contains_fetch_failure_witness :
  fetch_html net_two_sites "http://c.test"
  = (Raise (ClientError "cannot connect"), [])
  /\ (parse accept_bracketed net_two_sites "http://c.test").1 = Ok ∅.
Proof.
  split; [reflexivity|].
  apply (proj2 (parse_contains_fetch_failure accept_bracketed net_two_sites
                  "http://c.test")
           (ClientError "cannot connect") [] eq_refl).
Defined.

Lemma extract_links_known_base_witness :
  HREF_RE.findall page_known = ["/a"; "http://x.test/b"; "../c"]
  /\ (extract_links accept_bracketed origin_known page_known).1
     = Ok {[ "http://x.test/a"; "http://x.test/b"; "http://x.test/c" ]}.
Proof.
  split; [reflexivity|].
  apply (extract_links_known_base accept_bracketed page_known).
  intros v. change (HREF_RE.findall page_known)
    with ["/a"; "http://x.test/b"; "../c"].
  reflexivity.
Defined.

Lemma extract_links_drops_unresolvable_witness :
  HREF_RE.findall page_bad_href = ["/first"; "http://["; "/last"]
  /\ urljoin accept_bracketed "http://x.test/" "http://["
     = Raise (ValueError "Invalid IPv6 URL")
  /\ exists found l,
       extract_links accept_bracketed "http://x.test/" page_bad_href
       = (Ok found, l)
       /\ "http://x.test/last" ∈ found
       /\ ExceptionParsingURL "http://[" ∈ l.
Proof.
  split; [reflexivity|]. split; [reflexivity|].
  destruct (extract_links_drops_unresolvable accept_bracketed
              "http://x.test/" page_bad_href)
    as (found & l & Heq & Hres & Hlog).
  exists found, l. split; [exact Heq|]. split.
  - apply Hres. exists "/last".
    split; [|reflexivity].
    change (HREF_RE.findall page_bad_href)
      with ["/first"; "http://["; "/last"].
    repeat constructor.
  - apply (Hlog "http://[" (ValueError "Invalid IPv6 URL")); [|reflexivity].
    change (HREF_RE.findall page_bad_href)
      with ["/first"; "http://["; "/last"].
    repeat constructor.
Defined.


Lemma empty_href_yields_origin_witness :
  fetch_html (net_serving page_empty_href) origin_fragment
  = (Ok page_empty_href, [InfoGotResponse 200 origin_fragment])
  /\ EmptyString ∈ HREF_RE.findall page_empty_href
  /\ record_line origin_fragment origin_fragment
       ∈ (write_one accept_bracketed (net_serving page_empty_href)
            (fun _ => true) origin_fragment []).1.2.
Proof.
  assert (EmptyString ∈ HREF_RE.findall page_empty_href) as Hin.
  { change (HREF_RE.findall page_empty_href) with [EmptyString].
    repeat constructor. }
  split; [reflexivity|]. split; [exact Hin|].
  apply (proj2 (empty_href_yields_origin accept_bracketed
                  (net_serving page_empty_href) origin_fragment
                  page_empty_href [InfoGotResponse 200 origin_fragment] []
                  eq_refl Hin)).
Defined.

(** With an origin that has a fragment, the empty href gives the origin
    with its fragment, and not the origin without it. *)
Lemma empty_href_keeps_fragment :
  (extract_links accept_bracketed origin_fragment page_empty_href).1
  = Ok {[ "http://x.test/p#top" ]}
  /\ strip_fragment origin_fragment = "http://x.test/p"
  /\ strip_fragment origin_fragment
       ∉ ({[ "http://x.test/p#top" ]} : gset string).
Proof.
  split; [reflexivity|]. split; [reflexivity|].
  rewrite elem_of_singleton. discriminate.
Qed.

Lemma write_one_empty_is_noop_witness :
  (parse accept_bracketed net_two_sites "http://c.test").1 = Ok ∅
  /\ write_one accept_bracketed net_two_sites (fun _ => false)
       "http://c.test" ["source_url"]
     = (Ok tt, ["source_url"],
        [Printed "http://c.test"; ErrorAiohttp "http://c.test" None None]).
Proof.
  split; [reflexivity|].
  apply (proj1 (write_one_empty_is_noop accept_bracketed net_two_sites
                  (fun _ => false) "http://c.test" ["source_url"])
           eq_refl).
Defined.





Lemma gather_waits_for_all_witness :
  Forall (fun pk => io_ok pk = true) alternating
  /\ fair accept_bracketed net_two_sites two_sites alternating
  /\ (bulk_crawl_and_write accept_bracketed net_two_sites alternating
        two_sites []).1 = Completed.
Proof.
  assert (Forall (fun pk => io_ok pk = true) alternating) as Hio
    by (repeat constructor).
  assert (fair accept_bracketed net_two_sites two_sites alternating) as Hfair.
  { intros i url.
    change (elements two_sites) with ["http://a.test"; "http://b.test"].
    destruct i as [|[|i]]; [| |discriminate];
      intros [= <-]; vm_compute; lia. }
  split; [exact Hio|]. split; [exact Hfair|].
  apply (proj2 (proj2 (proj2 (gather_waits_for_all accept_bracketed
                                net_two_sites two_sites []))
                  alternating Hio) Hfair).
Defined.

(** A failing open in one task makes [bulk_crawl_and_write] leave at
    once, while the other task is in the middle of its records. *)
Lemma gather_leaves_sibling_behind :
  (bulk_crawl_and_write accept_bracketed net_two_sites cut_midway
     two_sites []).1 = Propagated (OSError "sink")
  /\ units (bulk_crawl_and_write accept_bracketed net_two_sites cut_midway
              two_sites []).2
     = [("http://a.test", Failed (OSError "sink"));
        ("http://b.test", Writing ["http://b.test/p"])]
  /\ sink (bulk_crawl_and_write accept_bracketed net_two_sites cut_midway
             two_sites []).2
     = [record_line "http://b.test" "http://b.test/q"].
Proof. repeat split; reflexivity. Qed.

(** ** The further theorems at work on the samples *)

Lemma findall_sound_witness :
  "/first" ∈ HREF_RE.findall page_bad_href
  /\ HREF_RE.plain "/first" = true.
Proof.
  assert ("/first" ∈ HREF_RE.findall page_bad_href) as Hin.
  { change (HREF_RE.findall page_bad_href)
      with ["/first"; "http://["; "/last"]. repeat constructor. }
  split; [exact Hin|].
  apply (proj1 (findall_sound page_bad_href "/first" Hin)).
Defined.

Lemma findall_needs_double_quote_witness :
  Str.mem Str.dquote page_single_quotes = false
  /\ HREF_RE.findall page_single_quotes = [].
Proof.
  split; [reflexivity|].
  apply (findall_needs_double_quote page_single_quotes eq_refl).
Defined.

Lemma findall_page_of_witness :
  HREF_RE.findall (page_of [("<a ", "/x"); ("> and <a ", "/y")] ">")
  = ["/x"; "/y"].
Proof.
  apply (findall_page_of [("<a ", "/x"); ("> and <a ", "/y")] ">").
  - repeat constructor.
  - reflexivity.
Defined.

Lemma parse_count_bounded_witness :
  fetch_html (net_serving (anchor "/a" ++ anchor "/a")) origin_known
  = (Ok (anchor "/a" ++ anchor "/a"), [InfoGotResponse 200 origin_known])
  /\ exists found l,
       parse accept_bracketed (net_serving (anchor "/a" ++ anchor "/a"))
         origin_known
       = (Ok found, (l ++ [InfoFound (size found) origin_known])%list)
       /\ size found <= 2.
Proof.
  split; [reflexivity|].
  destruct (parse_count_bounded accept_bracketed
              (net_serving (anchor "/a" ++ anchor "/a")) origin_known
              (anchor "/a" ++ anchor "/a")
              [InfoGotResponse 200 origin_known] eq_refl)
    as (found & l & Hp & Hsize).
  exists found, l. split; [exact Hp|exact Hsize].
Defined.

Lemma parse_log_exact_witness :
  fetch_html (net_serving page_bad_href) "http://x.test/"
  = (Ok page_bad_href, [InfoGotResponse 200 "http://x.test/"])
  /\ exists found : gset string,
       (parse accept_bracketed (net_serving page_bad_href) "http://x.test/").2
       = [Printed "http://x.test/"; InfoGotResponse 200 "http://x.test/";
          ExceptionParsingURL "http://[";
          InfoFound (size found) "http://x.test/"].
Proof.
  split; [reflexivity|].
  destruct (parse_log_exact accept_bracketed (net_serving page_bad_href)
              "http://x.test/" page_bad_href
              [InfoGotResponse 200 "http://x.test/"] eq_refl)
    as (found & _ & Hlog).
  exists found. exact Hlog.
Defined.

Lemma parse_http_error_logged_witness :
  net_not_found "http://x.test/"
  = Ok (mkResponse 404 "Not Found" (Ok "gone"))
  /\ parse accept_bracketed net_not_found "http://x.test/"
     = (Ok ∅, [Printed "http://x.test/";
               ErrorAiohttp "http://x.test/" (Some 404%Z) (Some "Not Found")]).
Proof.
  split; [reflexivity|].
  apply (parse_http_error_logged accept_bracketed net_not_found
           "http://x.test/" (mkResponse 404 "Not Found" (Ok "gone")) eq_refl).
  vm_compute. discriminate.
Defined.

Lemma sample_parse_a :
  parse accept_bracketed net_two_sites "http://a.test"
  = (Ok {[ "http://a.test/x"; "http://b.test/y" ]},
     [Printed "http://a.test"; InfoGotResponse 200 "http://a.test";
      InfoFound 2 "http://a.test"]).
Proof. vm_compute. reflexivity. Defined.

Lemma sample_set_a_nonempty :
  ({[ "http://a.test/x"; "http://b.test/y" ]} : gset string) <> ∅.
Proof.
  intros H. apply (f_equal elements) in H. vm_compute in H. discriminate.
Defined.

Lemma write_one_appends_batch_witness :
  write_one accept_bracketed net_two_sites (fun _ => true) "http://a.test"
    [header_line]
  = (Ok tt,
     [header_line; record_line "http://a.test" "http://a.test/x";
      record_line "http://a.test" "http://b.test/y"],
     [Printed "http://a.test"; InfoGotResponse 200 "http://a.test";
      InfoFound 2 "http://a.test"; InfoWrote "http://a.test"]).
Proof.
  apply (proj1 (write_one_appends_batch accept_bracketed net_two_sites
                  (fun _ => true) "http://a.test" [header_line] _ _
                  sample_parse_a sample_set_a_nonempty (fun _ _ => eq_refl))).
Defined.



Lemma record_line_inj_witness :
  Str.mem Str.tab "http://a.test" = false
  /\ (record_line "http://a.test" "/x" = record_line "http://a.test" "/x" ->
      "http://a.test" = "http://a.test" /\ "/x" = "/x").
Proof.
  split; [reflexivity|].
  apply (record_line_inj "http://a.test" "/x" "http://a.test" "/x"
           eq_refl eq_refl).
Defined.

Lemma completed_run_keeps_order_witness :
  (bulk_crawl_and_write accept_bracketed net_two_sites alternating
     two_sites []).1 = Completed
  /\ exists w,
       sink (bulk_crawl_and_write accept_bracketed net_two_sites alternating
               two_sites []).2 = w
       /\ batch accept_bracketed net_two_sites "http://a.test"
            `sublist_of` w.
Proof.
  split; [reflexivity|].
  destruct (completed_run_keeps_order accept_bracketed net_two_sites
              alternating two_sites []
              (bulk_crawl_and_write accept_bracketed net_two_sites alternating
                 two_sites []).2 eq_refl)
    as (w & Hsink & Hsub).
  exists w. split; [exact Hsink|].
  apply Hsub. apply elem_of_union. left. apply elem_of_singleton. reflexivity.
Defined.

Lemma failed_fetch_is_isolated_witness :
  fetch_html net_two_sites "http://c.test"
  = (Raise (ClientError "cannot connect"), [])
  /\ (bulk_crawl_and_write accept_bracketed net_two_sites five_each
        live_and_dead []).1 = Completed
  /\ batch accept_bracketed net_two_sites "http://c.test" = [].
Proof.
  split; [reflexivity|]. split; [reflexivity|].
  apply (proj1 (failed_fetch_is_isolated accept_bracketed net_two_sites
                  five_each live_and_dead []
                  (bulk_crawl_and_write accept_bracketed net_two_sites
                     five_each live_and_dead []).2
                  "http://c.test" (ClientError "cannot connect") []
                  eq_refl eq_refl)).
Defined.



Lemma sample_seed_b : "http://b.test" ∈ seed_urls seeds_text.
Proof.
  unfold seed_urls.
  change (List.map str_strip (file_lines seeds_text))
    with ["http://a.test"; "http://b.test"; "http://a.test"].
  apply elem_of_list_to_set. right. left.
Defined.

Lemma seed_urls_clean_witness :
  "http://b.test" ∈ seed_urls seeds_text
  /\ str_strip "http://b.test" = "http://b.test"
  /\ Str.mem Str.newline "http://b.test" = false.
Proof.
  split; [exact sample_seed_b|].
  destruct (seed_urls_clean seeds_text "http://b.test" sample_seed_b)
    as (Hnl & _ & Hstrip & _).
  split; [exact Hstrip|exact Hnl].
Defined.

Lemma blank_line_is_seed_witness :
  Str.all is_space "  " = true
  /\ EmptyString
       ∈ seed_urls ("http://a.test"
                    ++ String Str.newline
                         ("  " ++ String Str.newline "http://b.test")).
Proof.
  split; [reflexivity|].
  apply (blank_line_is_seed "http://a.test" "  " "http://b.test"
           eq_refl eq_refl eq_refl).
Defined.

Lemma sample_main_run :
  main accept_bracketed (Ok seeds_text) true net_two_sites alternating
  = Ok ((bulk_crawl_and_write accept_bracketed net_two_sites alternating
           two_sites [header_line]).1,
        (bulk_crawl_and_write accept_bracketed net_two_sites alternating
           two_sites [header_line]).2).
Proof. vm_compute. reflexivity. Defined.

Lemma main_output_witness :
  exists w,
    sink (bulk_crawl_and_write accept_bracketed net_two_sites alternating
            two_sites [header_line]).2 = header_line :: w.
Proof.
  apply (proj1 (proj2 (main_output accept_bracketed seeds_text net_two_sites
                         alternating _ _ sample_main_run))).
Defined.



Lemma parse_unreadable_body_witness :
  net_bad_body "http://x.test/"
  = Ok (mkResponse 200 "OK" (Raise (OtherException "UnicodeDecodeError")))
  /\ parse accept_bracketed net_bad_body "http://x.test/"
     = (Ok ∅,
        [Printed "http://x.test/"; InfoGotResponse 200 "http://x.test/";
         ExceptionNonAiohttp (OtherException "UnicodeDecodeError")]).
Proof.
  split; [reflexivity|].
  apply (parse_unreadable_body accept_bracketed net_bad_body "http://x.test/"
           (mkResponse 200 "OK" (Raise (OtherException "UnicodeDecodeError")))
           (OtherException "UnicodeDecodeError") eq_refl eq_refl eq_refl).
Defined.
